(** * curve chaos: the simulation core, embedded and verified

    The development follows [player.ts] (the player entity, movement, hole
    generator and collision engine), [powerup.ts] (the powerup kinds and
    their constants) and [main.ts] (game state, input handlers, the power-up
    effects, the frame loop and the round/session scorer).

    Conventions of the embedding:
    - objects that the code mutates in place (players, the powerup list,
      the module-level variables) become values of records threaded through
      the functions; the array of players is a list read with [!!] and
      written with [<[i:=p]>], so that a later player of the same frame sees
      what an earlier one left behind;
    - coordinates, angles and radii are JavaScript numbers that go through
      [Math.cos], [Math.sin] and [%]; their arithmetic is the interface
      [JSNumber] and every statement holds for each of its instances;
    - scores, hole timers, identifiers and clock readings are integers
      (clock readings are counted in ticks of [performance.now()]);
    - [Math.random()] and [performance.now()] are read from an environment
      that is an argument of the function that calls them. *)

From Stdlib Require Import ZArith Bool Lia.
From stdpp Require Import gmap strings list fin_maps sorting pretty.

(** ** JavaScript numbers *)

Class JSNumber (num : Type) := {
  of_Z : Z -> num;               (* an integer literal *)
  PI : num;                      (* Math.PI *)
  nadd : num -> num -> num;
  nsub : num -> num -> num;
  nmul : num -> num -> num;
  ndiv : num -> num -> num;
  nmod : num -> num -> num;      (* the remainder operator % *)
  nlt : num -> num -> bool;      (* a < b *)
  nle : num -> num -> bool;      (* a <= b *)
  ncos : num -> num;             (* Math.cos *)
  nsin : num -> num;             (* Math.sin *)
  nmin : num -> num -> num;      (* Math.min *)
  nmax : num -> num -> num;      (* Math.max *)
  nfloor : num -> Z              (* Math.floor, on an index *)
}.

(** Fixed-point arithmetic with three decimals: the integer [z] stands for
    [z / 1000]. The sine is Bhaskara's rational approximation. It is the
    instance on which the model is run on concrete inputs. *)
Module FixedPoint.
Definition one : Z := 1000.
Definition pi : Z := 3142.

(** The sine on [[0, pi]]. *)
Definition sinHalf (x : Z) : Z :=
  let t := (x * (pi - x))%Z in
  (16 * one * t / (5 * pi * pi - 4 * t))%Z.

Definition sin (x : Z) : Z :=
  let r := (x mod (2 * pi))%Z in
  if (r <=? pi)%Z then sinHalf r else (- sinHalf (r - pi))%Z.

Definition cos (x : Z) : Z := sin (x + pi / 2)%Z.

Definition number : JSNumber Z := {|
  of_Z := fun z => (z * one)%Z;
  PI := pi;
  nadd := Z.add;
  nsub := Z.sub;
  nmul := fun a b => (a * b / one)%Z;
  ndiv := fun a b => (a * one / b)%Z;
  nmod := Z.rem;
  nlt := Z.ltb;
  nle := Z.leb;
  ncos := cos;
  nsin := sin;
  nmin := Z.min;
  nmax := Z.max;
  nfloor := fun z => (z / one)%Z
|}.
End FixedPoint.

(** ** powerup.ts *)

Inductive PowerupType :=
| SPEED_BOOST
| SLOW_OTHERS
| THIN_TRAIL
| INVINCIBLE
| REVERSE_CONTROLS
| GHOST_MODE
| THICK_TRAIL
| CLEAR_OWN_TRAIL
| RANDOM_TELEPORT.

#[global] Instance PowerupType_eq_dec : EqDecision PowerupType.
Proof. solve_decision. Defined.

Definition PowerupType_index (k : PowerupType) : nat :=
  match k with
  | SPEED_BOOST => 0 | SLOW_OTHERS => 1 | THIN_TRAIL => 2
  | INVINCIBLE => 3 | REVERSE_CONTROLS => 4 | GHOST_MODE => 5
  | THICK_TRAIL => 6 | CLEAR_OWN_TRAIL => 7 | RANDOM_TELEPORT => 8
  end.

(** The table of [spawnPowerup], in its order. *)
Definition powerupTypes : list PowerupType :=
  [SPEED_BOOST; SLOW_OTHERS; THIN_TRAIL; INVINCIBLE; REVERSE_CONTROLS;
   GHOST_MODE; THICK_TRAIL; CLEAR_OWN_TRAIL; RANDOM_TELEPORT].

#[global] Instance PowerupType_countable : Countable PowerupType.
Proof.
  apply (inj_countable PowerupType_index (fun n => powerupTypes !! n)).
  intros k; destruct k; reflexivity.
Defined.

(** [POWERUP_CONSTANTS.<kind>.DURATION_MS]; the two instantaneous kinds have
    none. *)
Definition DURATION_MS (k : PowerupType) : option Z :=
  match k with
  | SPEED_BOOST => Some 5000
  | SLOW_OTHERS => Some 5000
  | THIN_TRAIL => Some 10000
  | INVINCIBLE => Some 3000
  | REVERSE_CONTROLS => Some 5000
  | GHOST_MODE => Some 4000
  | THICK_TRAIL => Some 8000
  | CLEAR_OWN_TRAIL | RANDOM_TELEPORT => None
  end%Z.

Definition DEFAULT_LIFETIME_MS : Z := 10000.

Module Powerup.
Record t {num : Type} := mk {
    id : nat;
    type : option PowerupType;   (* [powerupTypes[randomIndex]] *)
    x : num;
    y : num;
    radius : num;
    createdAt : Z
  }.
Arguments t : clear implicits.
Arguments mk {num}.

Definition set_createdAt {num} (v : Z) (u : t num) : t num :=
    mk (id u) (type u) (x u) (y u) (radius u) v.
End Powerup.

(** ** player.ts *)

Record Point {num : Type} := mkPoint { ptx : num; pty : num }.
Arguments Point : clear implicits.
Arguments mkPoint {num}.

Record PlayerControls := mkControls { left : string; right : string }.

Inductive Direction := DLeft | DRight.

Module Player.
Record t {num : Type} := mk {
    id : nat;
    name : string;
    x : num;
    y : num;
    angle : num;
    speed : num;
    color : string;
    isTurningLeft : bool;
    isTurningRight : bool;
    turnSpeed : num;
    radius : num;
    path : list (option (Point num));   (* [None] is the gap marker null *)
    isAlive : bool;
    score : Z;
    isMakingHole : bool;
    holeTimer : Z;
    activeEffects : gmap PowerupType Z   (* kind -> expiry timestamp *)
  }.
Arguments t : clear implicits.
Arguments mk {num}.

Section Setters.
Context {num : Type}.
Implicit Type p : t num.

Definition set_isAlive (v : bool) p : t num :=
      mk (id p) (name p) (x p) (y p) (angle p) (speed p) (color p)
         (isTurningLeft p) (isTurningRight p) (turnSpeed p) (radius p)
         (path p) v (score p) (isMakingHole p) (holeTimer p)
         (activeEffects p).

Definition set_score (v : Z) p : t num :=
      mk (id p) (name p) (x p) (y p) (angle p) (speed p) (color p)
         (isTurningLeft p) (isTurningRight p) (turnSpeed p) (radius p)
         (path p) (isAlive p) v (isMakingHole p) (holeTimer p)
         (activeEffects p).

Definition set_activeEffects (v : gmap PowerupType Z) p : t num :=
      mk (id p) (name p) (x p) (y p) (angle p) (speed p) (color p)
         (isTurningLeft p) (isTurningRight p) (turnSpeed p) (radius p)
         (path p) (isAlive p) (score p) (isMakingHole p) (holeTimer p) v.

Definition set_path (v : list (option (Point num))) p : t num :=
      mk (id p) (name p) (x p) (y p) (angle p) (speed p) (color p)
         (isTurningLeft p) (isTurningRight p) (turnSpeed p) (radius p)
         v (isAlive p) (score p) (isMakingHole p) (holeTimer p)
         (activeEffects p).

Definition set_xy (vx vy : num) p : t num :=
      mk (id p) (name p) vx vy (angle p) (speed p) (color p)
         (isTurningLeft p) (isTurningRight p) (turnSpeed p) (radius p)
         (path p) (isAlive p) (score p) (isMakingHole p) (holeTimer p)
         (activeEffects p).
End Setters.
End Player.

Section PlayerTs.
Context {num : Type} {JN : JSNumber num}.

Abbreviation Player := (Player.t num).

(** [player.activeEffects.KIND] used as a condition: the entry exists and
      is truthy (a number that is not 0). *)
Definition truthy (e : option Z) : bool :=
    match e with
    | Some t => negb (t =? 0)%Z
    | None => false
    end.

Definition effectActive (p : Player) (k : PowerupType) : bool :=
    truthy (Player.activeEffects p !! k).

Definition createPlayer (id : nat) (name : string) (x y angle : num)
      (color : string) (initialScore : Z) : Player :=
    Player.mk id name x y angle
      (of_Z 2) color false false
      (ndiv PI (of_Z 60)) (of_Z 5)
      [Some (mkPoint x y)]
      true initialScore false 0%Z ∅.

(** The loop "Check for Expired Effects": an entry is deleted when
      [expiryTime && now >= expiryTime]. *)
Definition expired (now : Z) (kv : PowerupType * Z) : Prop :=
    kv.2 ≠ 0%Z ∧ (kv.2 ≤ now)%Z.

Definition pruneEffects (now : Z) (m : gmap PowerupType Z)
      : gmap PowerupType Z :=
    filter (fun kv => ¬ expired now kv) m.

Definition HOLE_CHANCE_PER_UPDATE : num := ndiv (of_Z 7) (of_Z 1000).
Definition HOLE_DURATION_FRAMES : Z := 11.

(** [keyStates[key ?? ''] || false] *)
Definition keyDown (keyStates : gmap string bool) (key : string) : bool :=
    default false (keyStates !! key).

(** The entry pushed on [path] at the end of [updatePlayer]. *)
Definition pushTrail (hole : bool) (x y : num)
      (path : list (option (Point num))) : list (option (Point num)) :=
    if negb hole then path ++ [Some (mkPoint x y)]
    else match last path with
         | Some None => path                 (* last entry is null already *)
         | _ => path ++ [None]
         end.

(** [updatePlayer(player, keyStates)]; [now] is the reading of
      [performance.now()], [rnd] the draw of [Math.random()] and [controls]
      the module variable [playerControls]. *)
Definition updatePlayer (now : Z) (rnd : num)
      (controls : gmap nat PlayerControls) (keyStates : gmap string bool)
      (p : Player) : Player :=
    if negb (Player.isAlive p) then p else
    let effects := pruneEffects now (Player.activeEffects p) in
    (* hole timer *)
    let timer1 := if Player.isMakingHole p
                  then (Player.holeTimer p - 1)%Z else Player.holeTimer p in
    let hole1 := Player.isMakingHole p && negb (timer1 <=? 0)%Z in
    (* randomly start a hole *)
    let start := negb hole1 && nlt rnd HOLE_CHANCE_PER_UPDATE in
    let hole := if start then true else hole1 in
    let timer := if start then HOLE_DURATION_FRAMES else timer1 in
    (* turning *)
    let c := controls !! Player.id p in
    let reversed := truthy (effects !! REVERSE_CONTROLS) in
    let turnL := match c with
                 | Some k => keyDown keyStates (if reversed then right k else left k)
                 | None => Player.isTurningLeft p
                 end in
    let turnR := match c with
                 | Some k => keyDown keyStates (if reversed then left k else right k)
                 | None => Player.isTurningRight p
                 end in
    let a1 := if turnL then nsub (Player.angle p) (Player.turnSpeed p)
              else Player.angle p in
    let a2 := if turnR then nadd a1 (Player.turnSpeed p) else a1 in
    let angle := nmod (nadd a2 (nmul PI (of_Z 2))) (nmul PI (of_Z 2)) in
    (* effective speed *)
    let s1 := if truthy (effects !! SPEED_BOOST)
              then nmul (Player.speed p) (ndiv (of_Z 3) (of_Z 2))
              else Player.speed p in
    let currentSpeed := if truthy (effects !! SLOW_OTHERS)
                        then nmul s1 (ndiv (of_Z 7) (of_Z 10)) else s1 in
    let x := nadd (Player.x p) (nmul (ncos angle) currentSpeed) in
    let y := nadd (Player.y p) (nmul (nsin angle) currentSpeed) in
    Player.mk (Player.id p) (Player.name p) x y angle (Player.speed p)
      (Player.color p) turnL turnR (Player.turnSpeed p) (Player.radius p)
      (pushTrail hole x y (Player.path p))
      true (Player.score p) hole timer effects.

Definition skipSegments : Z := 20.

(** The circle test of the inner loop of [checkCollisions], against the
      recorded point [pt] of [other]. *)
Definition overlaps (player other : Player) (pt : Point num) : bool :=
    let dx := nsub (Player.x player) (ptx pt) in
    let dy := nsub (Player.y player) (pty pt) in
    let distanceSquared := nadd (nmul dx dx) (nmul dy dy) in
    let r := nadd (Player.radius player) (Player.radius other) in
    nlt distanceSquared (nmul r r).

(** The inner loop [for (let i = 0; i < otherPlayer.path.length; i++)],
      entered at index [i] with the entries [pts] still to visit. *)
Fixpoint scanPath (player other : Player) (i : nat)
      (pts : list (option (Point num))) : bool :=
    match pts with
    | [] => false
    | e :: rest =>
        if Nat.eqb (Player.id player) (Player.id other)
           && (Z.of_nat (length (Player.path other)) - skipSegments <=? Z.of_nat i)%Z
        then scanPath player other (S i) rest
        else match e with
             | None => scanPath player other (S i) rest
             | Some pt =>
                 if overlaps player other pt then true
                 else scanPath player other (S i) rest
             end
    end.

Definition trailCollision (player : Player) (allPlayers : list Player) : bool :=
    existsb (fun other => scanPath player other 0 (Player.path other)) allPlayers.

Definition hitsBoundary (player : Player) (playableWidth canvasHeight : num)
      : bool :=
    nlt (nsub (Player.x player) (Player.radius player)) (of_Z 0)
    || nlt playableWidth (nadd (Player.x player) (Player.radius player))
    || nlt (nsub (Player.y player) (Player.radius player)) (of_Z 0)
    || nlt canvasHeight (nadd (Player.y player) (Player.radius player)).

Definition checkCollisions (player : Player)
      (playableWidth canvasHeight : num) (allPlayers : list Player) : bool :=
    if Player.isMakingHole player || effectActive player INVINCIBLE then false
    else if effectActive player GHOST_MODE then false
    else if hitsBoundary player playableWidth canvasHeight then true
    else trailCollision player allPlayers.

End PlayerTs.

(** ** main.ts: state *)

Inductive GameState := WaitingToStart | Running | GameOver | SessionOver | Paused.
Inductive GameMode := Classic | Arcade.

#[global] Instance GameState_eq_dec : EqDecision GameState.
Proof. solve_decision. Defined.
#[global] Instance GameMode_eq_dec : EqDecision GameMode.
Proof. solve_decision. Defined.

(** The module-level variables of [main.ts] (and [playerControls] of
    [player.ts]), with the size of the canvas. *)
Module Game.
Record t {num : Type} := mk {
  players : list (Player.t num);
  gameState : GameState;
  selectedGameMode : option GameMode;
  activePowerups : list (Powerup.t num);
  nextPowerupId : nat;
  lastPowerupSpawnTime : Z;
  eliminationOrder : list nat;
  pauseStartTime : option Z;
  waitingForKeyBinding : option (nat * Direction);
  selectedPlayerCount : nat;
  lastScores : gmap nat Z;
  playerNames : gmap nat string;
  playerControls : gmap nat PlayerControls;
  keyStates : gmap string bool;
  canvasWidth : num;
  canvasHeight : num
}.
Arguments t : clear implicits.
Arguments mk {num}.
End Game.

Definition POWERUP_SPAWN_INTERVAL : Z := 3000.

(** The order of the comparator [(a, b) => b - a]. *)
Definition descending (a b : Z) : Prop := (b ≤ a)%Z.

#[global] Instance descending_dec : RelDecision descending.
Proof. intros a b. unfold descending. apply _. Defined.

(** [arr[i]] for a number [i] that came out of [Math.floor]. *)
Definition index_Z {A} (l : list A) (i : Z) : option A :=
  if (i <? 0)%Z then None else l !! Z.to_nat i.

Definition NAME_LISTS : list (list string) :=
  [ ["Ace"; "Bolt"; "Comet"; "Duke"; "Echo"; "Flash"; "Ghost"; "Hawk"; "Jett"; "King"];
    ["Bjorn"; "Fjord"; "Frost"; "Harald"; "Leif"; "Odin"; "Rune"; "Sigurd"; "Thor"; "Ulf"];
    ["Axel"; "Birger"; "Erik"; "Gustav"; "Ingvar"; "Lars"; "Magnus"; "Oskar"; "Ragnar"; "Sven"];
    ["Adler"; "Blitz"; "Claus"; "Dieter"; "Emil"; "Fritz"; "Gunther"; "Hans"; "Jurgen"; "Kaiser"] ].

Definition playerColors : list string := ["red"; "lime"; "magenta"; "cyan"].

Definition defaultControls : gmap nat PlayerControls :=
  <[1 := mkControls "arrowleft" "arrowright"]>
  (<[2 := mkControls "a" "d"]>
  (<[3 := mkControls "j" "l"]>
  (<[4 := mkControls "numpad4" "numpad6"]> ∅))).

(** What one call of [initializeGame] reads from [Math.random()], per
    player index. *)
Record InitEnv {num : Type} := {
  init_rndX : nat -> num;
  init_rndY : nat -> num;
  init_rndAngle : nat -> num
}.
Arguments InitEnv : clear implicits.

(** What one call of [gameLoop] reads from the clock and from
    [Math.random()]: in the lifetime filter, in [spawnPowerup], in
    [updatePlayer] (per player index) and in [applyPowerupEffect] (per
    player index and powerup index). *)
Record FrameEnv {num : Type} := {
  lifetime_now : Z;
  spawn_rndX : num;
  spawn_rndY : num;
  spawn_rndType : num;
  spawn_now : Z;
  update_now : nat -> Z;
  update_rnd : nat -> num;
  effect_now : nat -> nat -> Z;
  teleport_rndX : nat -> nat -> num;
  teleport_rndY : nat -> nat -> num
}.
Arguments FrameEnv : clear implicits.

(** The local state of the update block of [gameLoop]; [collected] lists
    the pairs (player id, powerup id) of the message "Player ... collected
    powerup ...", one per call of [applyPowerupEffect]. *)
Module Frame.
Record t {num : Type} := mk {
  currentPlayers : list (Player.t num);
  eliminationOrder : list nat;
  collectedPowerupIds : gset nat;
  livingPlayersCount : nat;
  collected : list (nat * nat)
}.
Arguments t : clear implicits.
Arguments mk {num}.
End Frame.

Section MainTs.
Context {num : Type} {JN : JSNumber num}.

Abbreviation Player := (Player.t num).
Abbreviation Powerup := (Powerup.t num).
Abbreviation Game := (Game.t num).

Definition MIN_TURN_RADIUS : num := ndiv (of_Z 3) (ndiv PI (of_Z 60)).
Definition SAFE_ZONE_BUFFER : num := nmul (of_Z 2) MIN_TURN_RADIUS.

(** [canvasWidth - leaderboardWidth - (2 * padding)] *)
Definition playableWidthOf (canvasWidth : num) : num :=
  nsub (nsub canvasWidth (of_Z 250)) (nmul (of_Z 2) (of_Z 15)).

(** The safe zone [(minX, maxX, minY, maxY)] of [initializeGame] and of the
    teleport, clamped to the midpoint when it is degenerate. *)
Definition safeZone (playableWidth h : num) : num * num * num * num :=
  let minX := SAFE_ZONE_BUFFER in
  let maxX := nsub playableWidth SAFE_ZONE_BUFFER in
  let minY := SAFE_ZONE_BUFFER in
  let maxY := nsub h SAFE_ZONE_BUFFER in
  if nle maxX minX || nle maxY minY then
    (nmin minX (ndiv playableWidth (of_Z 2)),
     nmax maxX (ndiv playableWidth (of_Z 2)),
     nmin minY (ndiv h (of_Z 2)),
     nmax maxY (ndiv h (of_Z 2)))
  else (minX, maxX, minY, maxY).

(** [Math.random() * (max - min) + min] *)
Definition randomIn (rnd lo hi : num) : num :=
  nadd (nmul rnd (nsub hi lo)) lo.

(** [assignInitialPlayerNames(count)]; [rnd i] is the draw for player
    index [i]. *)
Definition assignInitialPlayerNames (rnd : nat -> num) (count : nat)
    : gmap nat string :=
  foldl (fun names i =>
           let nameList := default [] (NAME_LISTS !! (i mod 4)) in
           let pick :=
             if bool_decide (0 < length nameList)
             then index_Z nameList
                    (nfloor (nmul (rnd i) (of_Z (Z.of_nat (length nameList)))))
             else Some ("Player " +:+ pretty (i + 1)) in
           match pick with
           | Some n => <[i + 1 := n]> names
           | None => delete (i + 1) names
           end)
        ∅ (seq 0 count).

(** [playerNames[i + 1] || `Player ${i+1}`] *)
Definition nameOf (names : gmap nat string) (i : nat) : string :=
  match names !! (i + 1) with
  | Some n => if bool_decide (n = "") then "Player " +:+ pretty (i + 1) else n
  | None => "Player " +:+ pretty (i + 1)
  end.

(** [initializeGame(canvas, playerCount, previousScores)]: the new players
    and the reset of the round variables. *)
Definition newPlayers (env : InitEnv num) (g : Game) (playerCount : nat)
    (previousScores : gmap nat Z) : list Player :=
  let '(minX, maxX, minY, maxY) :=
    safeZone (playableWidthOf (Game.canvasWidth g)) (Game.canvasHeight g) in
  (fun i =>
     createPlayer (i + 1) (nameOf (Game.playerNames g) i)
       (randomIn (init_rndX env i) minX maxX)
       (randomIn (init_rndY env i) minY maxY)
       (nmul (nmul (init_rndAngle env i) (of_Z 2)) PI)
       (default "" (playerColors !! (i mod 4)))
       (default 0%Z (previousScores !! (i + 1))))
  <$> seq 0 playerCount.

Definition initializeGame (env : InitEnv num) (g : Game) (playerCount : nat)
    (previousScores : gmap nat Z) : Game :=
  Game.mk (newPlayers env g playerCount previousScores)
    Running (Game.selectedGameMode g)
    [] 0 0%Z [] (Game.pauseStartTime g) (Game.waitingForKeyBinding g)
    (Game.selectedPlayerCount g) previousScores (Game.playerNames g)
    (Game.playerControls g) (Game.keyStates g)
    (Game.canvasWidth g) (Game.canvasHeight g).

(** [spawnPowerup(context)]: the powerup pushed on [activePowerups]. *)
Definition spawnPowerup (env : FrameEnv num) (g : Game) : Powerup :=
  let playableWidth := playableWidthOf (Game.canvasWidth g) in
  let margin := nmul (of_Z 10) (of_Z 2) in
  let spawnX := nadd (nmul (spawn_rndX env)
                        (nsub playableWidth (nmul margin (of_Z 2)))) margin in
  let spawnY := nadd (nmul (spawn_rndY env)
                        (nsub (Game.canvasHeight g) (nmul margin (of_Z 2)))) margin in
  let randomIndex :=
    nfloor (nmul (spawn_rndType env) (of_Z (Z.of_nat (length powerupTypes)))) in
  Powerup.mk (Game.nextPowerupId g) (index_Z powerupTypes randomIndex)
    spawnX spawnY (of_Z 10) (spawn_now env).

(** ** main.ts: power-up effects *)

Definition setEffect (k : PowerupType) (expiry : Z) (p : Player) : Player :=
  Player.set_activeEffects (<[k := expiry]> (Player.activeEffects p)) p.

(** The new [path] of CLEAR_OWN_TRAIL:
    [[player.path[player.path.length - 1] || { x: player.x, y: player.y }]] *)
Definition clearedTrail (p : Player) : list (option (Point num)) :=
  match last (Player.path p) with
  | Some (Some pt) => [Some pt]
  | _ => [Some (mkPoint (Player.x p) (Player.y p))]
  end.

(** RANDOM_TELEPORT on the collecting player. *)
Definition teleport (rndX rndY canvasWidth canvasHeight : num) (p : Player)
    : Player :=
  let '(minX, maxX, minY, maxY) :=
    safeZone (playableWidthOf canvasWidth) canvasHeight in
  let newX := randomIn rndX minX maxX in
  let newY := randomIn rndY minY maxY in
  Player.set_path
    (<[length (Player.path p) - 1 := Some (mkPoint newX newY)]> (Player.path p))
    (Player.set_xy newX newY p).

(** [applyPowerupEffect(player, powerup, allPlayers)], where [player] is
    [allPlayers[i]]. *)
Definition applyPowerupEffect (now : Z) (rndX rndY canvasWidth canvasHeight : num)
    (i : nat) (powerup : Powerup) (allPlayers : list Player) : list Player :=
  match allPlayers !! i with
  | None => allPlayers
  | Some player =>
      match Powerup.type powerup with
      | None => allPlayers
      | Some SLOW_OTHERS =>
          (fun otherPlayer =>
             if negb (Nat.eqb (Player.id otherPlayer) (Player.id player))
                && Player.isAlive otherPlayer
             then setEffect SLOW_OTHERS (now + 5000)%Z otherPlayer
             else otherPlayer) <$> allPlayers
      | Some CLEAR_OWN_TRAIL =>
          <[i := Player.set_path (clearedTrail player) player]> allPlayers
      | Some RANDOM_TELEPORT =>
          <[i := teleport rndX rndY canvasWidth canvasHeight player]> allPlayers
      | Some k =>
          match DURATION_MS k with
          | Some duration => <[i := setEffect k (now + duration)%Z player]> allPlayers
          | None => allPlayers
          end
      end
  end.

(** ** main.ts: the frame loop *)

(** The circle test of a head against a powerup. *)
Definition reaches (player : Player) (powerup : Powerup) : bool :=
  let dx := nsub (Player.x player) (Powerup.x powerup) in
  let dy := nsub (Player.y player) (Powerup.y powerup) in
  let distanceSquared := nadd (nmul dx dx) (nmul dy dy) in
  let r := nadd (Player.radius player) (Powerup.radius powerup) in
  nlt distanceSquared (nmul r r).

(** The loop [for (const powerup of activePowerups)] run for the player at
    index [i], entered at powerup index [j] with [powerups] still to
    visit. The player is read again at each turn: an effect applied at one
    powerup is seen at the next. *)
Fixpoint collectPowerups (env : FrameEnv num) (canvasWidth canvasHeight : num)
    (i j : nat) (powerups : list Powerup) (st : Frame.t num) : Frame.t num :=
  match powerups with
  | [] => st
  | powerup :: rest =>
      let st' :=
        if bool_decide (Powerup.id powerup ∈ Frame.collectedPowerupIds st)
        then st
        else match Frame.currentPlayers st !! i with
             | None => st
             | Some player =>
                 if reaches player powerup then
                   Frame.mk
                     (applyPowerupEffect (effect_now env i j)
                        (teleport_rndX env i j) (teleport_rndY env i j)
                        canvasWidth canvasHeight i powerup
                        (Frame.currentPlayers st))
                     (Frame.eliminationOrder st)
                     ({[Powerup.id powerup]} ∪ Frame.collectedPowerupIds st)
                     (Frame.livingPlayersCount st)
                     (Frame.collected st ++ [(Player.id player, Powerup.id powerup)])
                 else st
             end in
      collectPowerups env canvasWidth canvasHeight i (S j) rest st'
  end.

(** One turn of [for (const player of currentPlayers)], for index [i]. *)
Definition processPlayer (env : FrameEnv num) (g : Game) (st : Frame.t num)
    (i : nat) : Frame.t num :=
  match Frame.currentPlayers st !! i with
  | None => st
  | Some player0 =>
      let player := updatePlayer (update_now env i) (update_rnd env i)
                      (Game.playerControls g) (Game.keyStates g) player0 in
      let ps := <[i := player]> (Frame.currentPlayers st) in
      if Player.isAlive player then
        if checkCollisions player (playableWidthOf (Game.canvasWidth g))
             (Game.canvasHeight g) ps
        then
          Frame.mk (<[i := Player.set_isAlive false player]> ps)
            (Frame.eliminationOrder st ++ [Player.id player])
            (Frame.collectedPowerupIds st)
            (Frame.livingPlayersCount st)
            (Frame.collected st)
        else
          let st1 := Frame.mk ps (Frame.eliminationOrder st)
                       (Frame.collectedPowerupIds st)
                       (Frame.livingPlayersCount st)
                       (Frame.collected st) in
          let st2 :=
            if bool_decide (Game.selectedGameMode g = Some Arcade)
            then collectPowerups env (Game.canvasWidth g) (Game.canvasHeight g)
                   i 0 (Game.activePowerups g) st1
            else st1 in
          Frame.mk (Frame.currentPlayers st2) (Frame.eliminationOrder st2)
            (Frame.collectedPowerupIds st2)
            (S (Frame.livingPlayersCount st2))
            (Frame.collected st2)
      else
        Frame.mk ps (Frame.eliminationOrder st) (Frame.collectedPowerupIds st)
          (Frame.livingPlayersCount st) (Frame.collected st)
  end.

Definition processPlayers (env : FrameEnv num) (g : Game) : Frame.t num :=
  foldl (processPlayer env g)
    (Frame.mk (Game.players g) (Game.eliminationOrder g) ∅ 0 [])
    (seq 0 (length (Game.players g))).

(** ** main.ts: the round and session scorer *)

Definition livingPlayerIds (currentPlayers : list Player) : list nat :=
  Player.id <$> filter (fun p => Player.isAlive p = true) currentPlayers.

Definition finalRanking (currentPlayers : list Player)
    (eliminationOrder : list nat) : list nat :=
  livingPlayerIds currentPlayers ++ reverse eliminationOrder.

Definition pointsAwarded : list Z := [3; 2; 1; 0]%Z.

(** [pointsAwarded[index] ?? 0] *)
Definition pointsFor (index : nat) : Z := default 0%Z (pointsAwarded !! index).

(** [finalRanking.forEach((playerId, index) => ...)], entered at [index]. *)
Fixpoint awardPoints (index : nat) (ranking : list nat)
    (currentPlayers : list Player) : list Player :=
  match ranking with
  | [] => currentPlayers
  | playerId :: rest =>
      let awarded :=
        match list_find (fun p => Player.id p = playerId) currentPlayers with
        | Some (k, player) =>
            <[k := Player.set_score (Player.score player + pointsFor index)%Z player]>
              currentPlayers
        | None => currentPlayers
        end in
      awardPoints (S index) rest awarded
  end.

(** [lastScores = {}; currentPlayers.forEach(p => lastScores[p.id] = p.score)] *)
Definition scoresOf (currentPlayers : list Player) : gmap nat Z :=
  foldl (fun m p => <[Player.id p := Player.score p]> m) ∅ currentPlayers.

(** [Object.values(lastScores).sort((a, b) => b - a)]: the values in
    descending order (their order before the sort does not show). *)
Definition sortedScores (lastScores : gmap nat Z) : list Z :=
  merge_sort descending ((map_to_list lastScores).*2).

Definition WIN_SCORE : Z := 30.
Definition WIN_DIFFERENCE : Z := 2.

(** The session win condition. *)
Definition sessionWon (lastScores : gmap nat Z) : bool :=
  let scores := sortedScores lastScores in
  let highestScore := default 0%Z (scores !! 0) in
  let secondHighestScore := default 0%Z (scores !! 1) in
  (WIN_SCORE <=? highestScore)%Z
  && (bool_decide (length scores < 2)
      || (secondHighestScore + WIN_DIFFERENCE <=? highestScore)%Z).

(** The block "Round End Logic" of [gameLoop]. *)
Definition roundEnd (g : Game) (st : Frame.t num)
    (activePowerups : list Powerup) : Game :=
  let ranking := finalRanking (Frame.currentPlayers st) (Frame.eliminationOrder st) in
  let scored := awardPoints 0 ranking (Frame.currentPlayers st) in
  let lastScores := scoresOf scored in
  Game.mk scored
    (if sessionWon lastScores then SessionOver else GameOver)
    (Game.selectedGameMode g) activePowerups (Game.nextPowerupId g)
    (Game.lastPowerupSpawnTime g) (Frame.eliminationOrder st)
    (Game.pauseStartTime g) (Game.waitingForKeyBinding g)
    (Game.selectedPlayerCount g) lastScores (Game.playerNames g)
    (Game.playerControls g) (Game.keyStates g)
    (Game.canvasWidth g) (Game.canvasHeight g).

(** The variables that the powerup bookkeeping at the head of [gameLoop]
    writes. *)
Definition withPowerups (activePowerups : list Powerup) (nextPowerupId : nat)
    (lastPowerupSpawnTime : Z) (g : Game) : Game :=
  Game.mk (Game.players g) (Game.gameState g) (Game.selectedGameMode g)
    activePowerups nextPowerupId lastPowerupSpawnTime
    (Game.eliminationOrder g) (Game.pauseStartTime g)
    (Game.waitingForKeyBinding g) (Game.selectedPlayerCount g)
    (Game.lastScores g) (Game.playerNames g) (Game.playerControls g)
    (Game.keyStates g) (Game.canvasWidth g) (Game.canvasHeight g).

(** The head of [gameLoop]: first-frame spawn timer, powerup lifetimes and
    spawning. *)
Definition managePowerups (env : FrameEnv num) (timestamp : Z) (g : Game) : Game :=
  let running := bool_decide (Game.gameState g = Running) in
  let arcade := bool_decide (Game.selectedGameMode g = Some Arcade) in
  let g1 :=
    if (Game.lastPowerupSpawnTime g =? 0)%Z && running
    then withPowerups (Game.activePowerups g) (Game.nextPowerupId g) timestamp g
    else g in
  let g2 :=
    if running && arcade
    then withPowerups
           (filter (fun u => (lifetime_now env - Powerup.createdAt u
                              < DEFAULT_LIFETIME_MS)%Z)
                   (Game.activePowerups g1))
           (Game.nextPowerupId g1) (Game.lastPowerupSpawnTime g1) g1
    else g1 in
  if running && arcade
     && (POWERUP_SPAWN_INTERVAL <? timestamp - Game.lastPowerupSpawnTime g2)%Z
  then withPowerups (Game.activePowerups g2 ++ [spawnPowerup env g2])
         (S (Game.nextPowerupId g2)) timestamp g2
  else g2.

(** The update block of [gameLoop], from a state [g] that is running. *)
Definition updateStep (env : FrameEnv num) (g : Game) : Game :=
  let st := processPlayers env g in
  let remaining :=
    filter (fun u => Powerup.id u ∉ Frame.collectedPowerupIds st)
           (Game.activePowerups g) in
  if bool_decide (Frame.livingPlayersCount st ≤ 1)
     && bool_decide (1 < length (Frame.currentPlayers st))
  then roundEnd g st remaining
  else
    Game.mk (Frame.currentPlayers st) (Game.gameState g)
      (Game.selectedGameMode g) remaining (Game.nextPowerupId g)
      (Game.lastPowerupSpawnTime g) (Frame.eliminationOrder st)
      (Game.pauseStartTime g) (Game.waitingForKeyBinding g)
      (Game.selectedPlayerCount g) (Game.lastScores g) (Game.playerNames g)
      (Game.playerControls g) (Game.keyStates g)
      (Game.canvasWidth g) (Game.canvasHeight g).

(** [gameLoop(timestamp, context, currentPlayers)], one animation frame. *)
Definition gameLoop (env : FrameEnv num) (timestamp : Z) (g : Game) : Game :=
  if bool_decide (Game.gameState g = Paused) then g
  else
    let g1 := managePowerups env timestamp g in
    if bool_decide (Game.gameState g1 = Running) then updateStep env g1 else g1.

(** ** main.ts: input handlers *)

(** What [handleKeyDown] may read: the clock, and the draws of a start of
    round and of a new assignment of names. *)
Record KeyEnv := {
  key_now : Z;
  key_init : InitEnv num;
  key_names : nat -> num
}.

(** [setPlayerControl(playerId, direction, key)] *)
Definition setPlayerControl (playerId : nat) (direction : Direction)
    (key : string) (controls : gmap nat PlayerControls)
    : gmap nat PlayerControls :=
  match controls !! playerId with
  | Some c =>
      <[playerId := match direction with
                    | DLeft => mkControls key (right c)
                    | DRight => mkControls (left c) key
                    end]> controls
  | None => controls
  end.

(** The resume branch adds the paused duration to a truthy expiry time. *)
Definition shiftExpiry (pausedDuration : Z) (expiryTime : Z) : Z :=
  if (expiryTime =? 0)%Z then expiryTime else (expiryTime + pausedDuration)%Z.

Definition shiftEffects (pausedDuration : Z) (p : Player) : Player :=
  Player.set_activeEffects (shiftExpiry pausedDuration <$> Player.activeEffects p) p.

Definition shiftPowerup (pausedDuration : Z) (u : Powerup) : Powerup :=
  Powerup.set_createdAt (Powerup.createdAt u + pausedDuration)%Z u.

(** Space while running. *)
Definition pauseGame (now : Z) (g : Game) : Game :=
  Game.mk (Game.players g) Paused (Game.selectedGameMode g)
    (Game.activePowerups g) (Game.nextPowerupId g)
    (Game.lastPowerupSpawnTime g) (Game.eliminationOrder g)
    (Some now) (Game.waitingForKeyBinding g) (Game.selectedPlayerCount g)
    (Game.lastScores g) (Game.playerNames g) (Game.playerControls g)
    (Game.keyStates g) (Game.canvasWidth g) (Game.canvasHeight g).

(** Space while paused. *)
Definition resumeGame (now : Z) (g : Game) : Game :=
  match Game.pauseStartTime g with
  | Some pauseStart =>
      let pausedDuration := (now - pauseStart)%Z in
      Game.mk (shiftEffects pausedDuration <$> Game.players g) Running
        (Game.selectedGameMode g)
        (shiftPowerup pausedDuration <$> Game.activePowerups g)
        (Game.nextPowerupId g)
        (Game.lastPowerupSpawnTime g + pausedDuration)%Z
        (Game.eliminationOrder g) None (Game.waitingForKeyBinding g)
        (Game.selectedPlayerCount g) (Game.lastScores g) (Game.playerNames g)
        (Game.playerControls g) (Game.keyStates g)
        (Game.canvasWidth g) (Game.canvasHeight g)
  | None =>
      Game.mk (Game.players g) Running (Game.selectedGameMode g)
        (Game.activePowerups g) (Game.nextPowerupId g)
        (Game.lastPowerupSpawnTime g) (Game.eliminationOrder g)
        None (Game.waitingForKeyBinding g) (Game.selectedPlayerCount g)
        (Game.lastScores g) (Game.playerNames g) (Game.playerControls g)
        (Game.keyStates g) (Game.canvasWidth g) (Game.canvasHeight g)
  end.

(** The branch of [handleKeyDown] taken while a key binding is awaited. *)
Definition bindKey (key : string) (target : nat * Direction) (g : Game) : Game :=
  let rebound (controls : gmap nat PlayerControls)
              (waiting : option (nat * Direction)) :=
    Game.mk (Game.players g) (Game.gameState g) (Game.selectedGameMode g)
      (Game.activePowerups g) (Game.nextPowerupId g)
      (Game.lastPowerupSpawnTime g) (Game.eliminationOrder g)
      (Game.pauseStartTime g) waiting (Game.selectedPlayerCount g)
      (Game.lastScores g) (Game.playerNames g) controls
      (Game.keyStates g) (Game.canvasWidth g) (Game.canvasHeight g) in
  if bool_decide (key = "escape") then rebound (Game.playerControls g) None
  else if bool_decide (key = " " ∨ key = "spacebar" ∨ key = "enter") then g
  else if bool_decide (String.length key = 1)
          || String.prefix "arrow" key || String.prefix "numpad" key
  then rebound (setPlayerControl target.1 target.2 key (Game.playerControls g)) None
  else g.

(** Enter on the session-over screen. *)
Definition returnToMenu (rnd : nat -> num) (g : Game) : Game :=
  Game.mk [] WaitingToStart (Game.selectedGameMode g)
    (Game.activePowerups g) (Game.nextPowerupId g)
    (Game.lastPowerupSpawnTime g) (Game.eliminationOrder g)
    (Game.pauseStartTime g) (Game.waitingForKeyBinding g)
    (Game.selectedPlayerCount g) ∅
    (assignInitialPlayerNames rnd (Game.selectedPlayerCount g))
    (Game.playerControls g) (Game.keyStates g)
    (Game.canvasWidth g) (Game.canvasHeight g).

(** [keyStates[key] = v] *)
Definition setKeyState (key : string) (v : bool) (g : Game) : Game :=
  Game.mk (Game.players g) (Game.gameState g) (Game.selectedGameMode g)
    (Game.activePowerups g) (Game.nextPowerupId g)
    (Game.lastPowerupSpawnTime g) (Game.eliminationOrder g)
    (Game.pauseStartTime g) (Game.waitingForKeyBinding g)
    (Game.selectedPlayerCount g) (Game.lastScores g) (Game.playerNames g)
    (Game.playerControls g) (<[key := v]> (Game.keyStates g))
    (Game.canvasWidth g) (Game.canvasHeight g).

Definition isSpace (key : string) : bool :=
  bool_decide (key = " " ∨ key = "spacebar").

(** [handleKeyDown(event)], with [key] the lower-cased [event.key]. *)
Definition handleKeyDown (env : KeyEnv) (key : string) (g : Game) : Game :=
  match Game.waitingForKeyBinding g, Game.gameState g with
  | Some target, WaitingToStart => bindKey key target g
  | _, _ =>
      if isSpace key
         && bool_decide (Game.gameState g = WaitingToStart)
         && bool_decide (is_Some (Game.selectedGameMode g))
         && bool_decide (Game.waitingForKeyBinding g = None)
      then initializeGame (key_init env) g (Game.selectedPlayerCount g) ∅
      else if isSpace key && bool_decide (Game.gameState g = Running)
      then pauseGame (key_now env) g
      else if isSpace key && bool_decide (Game.gameState g = Paused)
      then resumeGame (key_now env) g
      else if bool_decide (key = "enter")
              && bool_decide (Game.gameState g = GameOver)
      then initializeGame (key_init env) g (Game.selectedPlayerCount g)
             (Game.lastScores g)
      else if bool_decide (key = "enter")
              && bool_decide (Game.gameState g = SessionOver)
      then returnToMenu (key_names env) g
      else setKeyState key true g
  end.

(** [handleKeyUp(event)] *)
Definition handleKeyUp (key : string) (g : Game) : Game :=
  setKeyState key false g.

(** The button under the pointer, in the order in which [handleMouseClick]
    looks for it. *)
Inductive Button :=
| ModeButton (mode : option GameMode)
| KeyBindButton (playerId : nat) (direction : Direction)
| IncreaseButton
| DecreaseButton.

Definition withMenu (mode : option GameMode)
    (waiting : option (nat * Direction)) (count : nat)
    (names : gmap nat string) (g : Game) : Game :=
  Game.mk (Game.players g) (Game.gameState g) mode
    (Game.activePowerups g) (Game.nextPowerupId g)
    (Game.lastPowerupSpawnTime g) (Game.eliminationOrder g)
    (Game.pauseStartTime g) waiting count
    (Game.lastScores g) names (Game.playerControls g)
    (Game.keyStates g) (Game.canvasWidth g) (Game.canvasHeight g).

(** [handleMouseClick(event)]; [hit] is the button that contains the
    pointer, if any, and [rnd] the draws of a new assignment of names. *)
Definition handleMouseClick (rnd : nat -> num) (hit : option Button)
    (g : Game) : Game :=
  if negb (bool_decide (Game.gameState g = WaitingToStart)) then g
  else
    match hit with
    | None => g
    | Some (ModeButton mode) =>
        withMenu mode (Game.waitingForKeyBinding g)
          (Game.selectedPlayerCount g) (Game.playerNames g) g
    | Some (KeyBindButton playerId direction) =>
        withMenu (Game.selectedGameMode g) (Some (playerId, direction))
          (Game.selectedPlayerCount g) (Game.playerNames g) g
    | Some IncreaseButton =>
        if bool_decide (Game.selectedPlayerCount g < 4)
        then withMenu (Game.selectedGameMode g) (Game.waitingForKeyBinding g)
               (S (Game.selectedPlayerCount g))
               (assignInitialPlayerNames rnd (S (Game.selectedPlayerCount g))) g
        else g
    | Some DecreaseButton =>
        if bool_decide (1 < Game.selectedPlayerCount g)
        then withMenu (Game.selectedGameMode g) (Game.waitingForKeyBinding g)
               (Game.selectedPlayerCount g - 1)
               (assignInitialPlayerNames rnd (Game.selectedPlayerCount g - 1)) g
        else g
    end.

(** [resizeCanvas()] *)
Definition resizeCanvas (innerWidth innerHeight : num) (g : Game) : Game :=
  Game.mk (Game.players g) (Game.gameState g) (Game.selectedGameMode g)
    (Game.activePowerups g) (Game.nextPowerupId g)
    (Game.lastPowerupSpawnTime g) (Game.eliminationOrder g)
    (Game.pauseStartTime g) (Game.waitingForKeyBinding g)
    (Game.selectedPlayerCount g) (Game.lastScores g) (Game.playerNames g)
    (Game.playerControls g) (Game.keyStates g) innerWidth innerHeight.

(** ** The program as a whole *)

(** What the browser delivers to the page. *)
Inductive Event :=
| KeyDown (env : KeyEnv) (key : string)
| KeyUp (key : string)
| Click (rnd : nat -> num) (hit : option Button)
| Resize (innerWidth innerHeight : num)
| AnimationFrame (env : FrameEnv num) (timestamp : Z).

Definition handle (g : Game) (e : Event) : Game :=
  match e with
  | KeyDown env key => handleKeyDown env key g
  | KeyUp key => handleKeyUp key g
  | Click rnd hit => handleMouseClick rnd hit g
  | Resize w h => resizeCanvas w h g
  | AnimationFrame env timestamp => gameLoop env timestamp g
  end.

(** The state once the module is loaded: the settings give the player
    count and the controls, the window gives the size of the canvas. *)
Definition initialGame (playerCount : nat) (controls : gmap nat PlayerControls)
    (rnd : nat -> num) (innerWidth innerHeight : num) : Game :=
  Game.mk [] WaitingToStart None [] 0 0%Z [] None None playerCount ∅
    (assignInitialPlayerNames rnd playerCount) controls ∅
    innerWidth innerHeight.

(** The state after the events [events], in their order. *)
Definition run (start : Game) (events : list Event) : Game :=
  foldl handle start events.

End MainTs.

(** ** Properties of the trail *)

(** No gap marker is followed by a gap marker. *)
Fixpoint noConsecutiveGaps {num} (path : list (option (Point num))) : bool :=
  match path with
  | [] => true
  | e :: rest =>
      match e, rest with
      | None, None :: _ => false
      | _, _ => noConsecutiveGaps rest
      end
  end.

(** Several calls of [updatePlayer] in a row on one player, each with its
    clock reading, its random draw and the keys held. *)
Definition updateRun {num} {JN : JSNumber num}
    (controls : gmap nat PlayerControls)
    (inputs : list (Z * num * gmap string bool)) (p : Player.t num)
    : Player.t num :=
  foldl (fun q i => updatePlayer i.1.1 i.1.2 controls i.2 q) p inputs.

(** The player is making a hole at the end of each call of the run. *)
Fixpoint holeRun {num} {JN : JSNumber num}
    (controls : gmap nat PlayerControls)
    (inputs : list (Z * num * gmap string bool)) (p : Player.t num) : bool :=
  match inputs with
  | [] => true
  | i :: rest =>
      let q := updatePlayer i.1.1 i.1.2 controls i.2 p in
      Player.isMakingHole q && holeRun controls rest q
  end.

(** The points that the inner loop of [checkCollisions] puts to the circle
    test: entry [i] of the path of [other], unless [other] has the id of the
    player and [i] is among the last 20 indices. *)
Definition tested {num} (p other : Player.t num) (i : nat) : Prop :=
  Player.id p = Player.id other → i + 20 < length (Player.path other).

(** ** Properties of a round *)

(** What the scorer reads of a player: id, alive flag and score. *)
Definition ledger {num} (p : Player.t num) : nat * bool * Z :=
  (Player.id p, Player.isAlive p, Player.score p).

Definition ids {num} (ps : list (Player.t num)) : list nat :=
  Player.id <$> ps.

(** The ids of the players that are out. *)
Definition deadIds (l : list (nat * bool * Z)) : list nat :=
  (fun v => v.1.1) <$> filter (fun v => v.1.2 = false) l.

(** The number of players still in. *)
Definition livingCount (l : list (nat * bool * Z)) : nat :=
  length (filter (fun v => v.1.2 = true) l).

Definition sumZ (l : list Z) : Z := foldr Z.add 0%Z l.

Definition totalScore {num} (ps : list (Player.t num)) : Z :=
  sumZ (Player.score <$> ps).

(** The points of the player [playerId] in a ranking whose first position
    has index [index]: those of its first position, none if it is not
    ranked. *)
Definition bonus (index : nat) (ranking : list nat) (playerId : nat) : Z :=
  match list_find (fun r => r = playerId) ranking with
  | Some (k, _) => pointsFor (index + k)
  | None => 0%Z
  end.

(** The players are distinct and [eliminationOrder] lists those that are
    out; before a round is set up there are no players. *)
Definition roundInv {num} (g : Game.t num) : Prop :=
  Game.players g = []
  ∨ (NoDup (ids (Game.players g))
     ∧ Game.eliminationOrder g ≡ₚ deadIds (ledger <$> Game.players g)).

(** The same, inside the update block of a frame. *)
Definition frameInv {num} (st : Frame.t num) : Prop :=
  NoDup (ids (Frame.currentPlayers st))
  ∧ Frame.eliminationOrder st ≡ₚ deadIds (ledger <$> Frame.currentPlayers st).

Definition pathsNonEmpty {num} (ps : list (Player.t num)) : Prop :=
  Forall (fun p => Player.path p ≠ []) ps.

(** A trail as the program keeps it: not empty, no gap marker next to
    another. *)
Definition trailOK {num} (path : list (option (Point num))) : Prop :=
  path ≠ [] ∧ noConsecutiveGaps path = true.

Definition pathsOK {num} (ps : list (Player.t num)) : Prop :=
  Forall (fun p => trailOK (Player.path p)) ps.

(** The powerup ids of the messages are distinct and are the set
    [collectedPowerupIds]. *)
Definition logInv {num} (st : Frame.t num) : Prop :=
  NoDup (Frame.collected st).*2
  ∧ Frame.collectedPowerupIds st = list_to_set (Frame.collected st).*2.

(** 1 if entry [i] of the ledgers is a player still in, 0 otherwise. *)
Definition aliveAt (l : list (nat * bool * Z)) (i : nat) : nat :=
  match l !! i with
  | Some (_, true, _) => 1
  | _ => 0
  end.

(** A player with its score put aside. *)
Definition unscored {num} (p : Player.t num) : Player.t num :=
  Player.set_score 0%Z p.

(** The players after the award, rank by rank. *)
Definition awarded {num} (index : nat) (ranking : list nat)
    (ps : list (Player.t num)) : list (Player.t num) :=
  (fun p => Player.set_score
              (Player.score p + bonus index ranking (Player.id p))%Z p) <$> ps.

(** The players of a round are numbered from 1 to [selectedPlayerCount];
    on the menu there are none. *)
Definition rosterInv {num} (g : Game.t num) : Prop :=
  Game.players g = []
  ∨ (Game.gameState g ≠ WaitingToStart
     ∧ ids (Game.players g)
       = (fun i => i + 1) <$> seq 0 (Game.selectedPlayerCount g)).

(** What every reachable state satisfies. *)
Definition sound {num} (g : Game.t num) : Prop :=
  roundInv g ∧ pathsOK (Game.players g).

(** ** Properties of the session *)

(** [h] is the highest of the scores. *)
Definition highest (h : Z) (scores : list Z) : Prop :=
  h ∈ scores ∧ ∀ s, s ∈ scores → (s ≤ h)%Z.

(** [s2] is the second highest: the highest once one occurrence of the
    highest is taken away. *)
Definition secondHighest (s2 : Z) (scores : list Z) : Prop :=
  ∃ h rest, scores ≡ₚ h :: rest ∧ highest h scores ∧ highest s2 rest.

(** The highest score is at least 30 and there are fewer than two scores
    or the highest exceeds the second highest by at least 2. *)
Definition winCondition (scores : list Z) : Prop :=
  ∃ h, highest h scores ∧ (30 ≤ h)%Z
       ∧ (length scores < 2
          ∨ ∃ s2, secondHighest s2 scores ∧ (2 ≤ h - s2)%Z).

(** ** Properties of a pause *)

(** The event is a press of the space bar. *)
Definition isSpaceDown {num} (e : Event (num := num)) : bool :=
  match e with
  | KeyDown _ key => isSpace key
  | _ => false
  end.


(** ** Properties of a collection *)





(** ** Concrete scenarios, in fixed-point arithmetic *)

Module Scenario.
#[local] Existing Instance FixedPoint.number.

Definition noKeys : gmap string bool := ∅.

(** A player that has been eliminated. *)
Definition fallen : Player.t Z :=
  Player.set_isAlive false
    (createPlayer 1 "Ace" 100000%Z 100000%Z 0%Z "red" 4%Z).

(** A player in the middle of a hole, outside the playable area. *)
Definition digging : Player.t Z :=
  Player.mk 2 "Bjorn" (-50000)%Z 10000%Z 0%Z 2000%Z "lime" false false
    52%Z 5000%Z [Some (mkPoint (-52000) 10000)%Z; None] true 0%Z true 6%Z ∅.

(** Three calls of [updatePlayer] with no key held. *)
Definition threeSteps : list (Z * Z * gmap string bool) :=
  [(0, 500, noKeys); (16, 500, noKeys); (33, 500, noKeys)]%Z.

(** A new player heading east, and one a little to the south. *)
Definition north : Player.t Z :=
  createPlayer 1 "Ace" 100000%Z 100000%Z 0%Z "red" 0%Z.
Definition south : Player.t Z :=
  createPlayer 2 "Bjorn" 100000%Z 128000%Z 0%Z "lime" 0%Z.

(** A player with a trail of 30 points behind it on its own line, the
    head on the oldest of them. *)
Definition looped : Player.t Z :=
  Player.set_path
    ((fun i => Some (mkPoint (100000 + 2000 * Z.of_nat i) 100000)%Z) <$> seq 0 30)
    north.

(** A speed boost between the two, within reach of both after one step. *)
Definition boost : Powerup.t Z :=
  Powerup.mk 0 (Some SPEED_BOOST) 102000%Z 114000%Z 10000%Z 0%Z.

Definition quietFrame : FrameEnv Z := {|
  lifetime_now := 1000;
  spawn_rndX := 500; spawn_rndY := 500; spawn_rndType := 500;
  spawn_now := 1000;
  update_now := fun _ => 1000%Z;
  update_rnd := fun _ => 500%Z;
  effect_now := fun _ _ => 1000%Z;
  teleport_rndX := fun _ _ => 500%Z;
  teleport_rndY := fun _ _ => 500%Z
|}%Z.

(** An arcade round in which both players are about to reach [boost]. *)
Definition contested : Game.t Z :=
  Game.mk [north; south] Running (Some Arcade) [boost] 1 1000%Z [] None None
    2 ∅ ∅ defaultControls ∅ 1280000%Z 720000%Z.

(** The same round with [north] boosted until tick 6000. *)
Definition boosted : Game.t Z :=
  Game.mk [setEffect SPEED_BOOST 6000%Z north; south] Running (Some Arcade)
    [boost] 1 1000%Z [] None None 2 ∅ ∅ defaultControls ∅
    1280000%Z 720000%Z.

Definition pressAt (now : Z) : KeyEnv (num := Z) := {|
  key_now := now;
  key_init := {| init_rndX := fun _ => 500%Z;
                 init_rndY := fun _ => 500%Z;
                 init_rndAngle := fun _ => 0%Z |};
  key_names := fun _ => 300%Z
|}.

(** What happens during the pause: a key goes up, a frame is due, the
    window is resized. *)
Definition whilePaused : list (Event (num := Z)) :=
  [KeyUp " "; AnimationFrame quietFrame 2000%Z; Resize 1000000%Z 700000%Z;
   KeyDown (pressAt 3000%Z) "a"].

(** The page is loaded for two players, the arcade mode is chosen and the
    space bar starts the round; both players are placed on one spot. *)
Definition opening : list (Event (num := Z)) :=
  [Resize 1280000%Z 720000%Z;
   Click (fun _ => 300%Z) (Some (ModeButton (Some Arcade)));
   KeyDown (pressAt 0%Z) " "].

Definition loaded : Game.t Z :=
  initialGame 2 defaultControls (fun _ => 300%Z) 0%Z 0%Z.

(** The first frame: player 1 runs into the start of player 2, who is
    starting a hole and passes. *)
Definition firstFrame : FrameEnv Z := {|
  lifetime_now := 16;
  spawn_rndX := 500; spawn_rndY := 500; spawn_rndType := 500;
  spawn_now := 16;
  update_now := fun _ => 16%Z;
  update_rnd := fun i => if Nat.eqb i 1 then 0%Z else 500%Z;
  effect_now := fun _ _ => 16%Z;
  teleport_rndX := fun _ _ => 500%Z;
  teleport_rndY := fun _ _ => 500%Z
|}%Z.

(** The state when the round starts, and its two players. *)
Definition started : Game.t Z := run loaded opening.
Definition firstPlayer : Player.t Z :=
  createPlayer 1 "Duke" 500000%Z 360000%Z 0%Z "red" 0%Z.

(** Four players of which only player 3 is still in. *)
Definition lastStanding : list (Player.t Z) :=
  [Player.set_isAlive false north;
   Player.set_isAlive false south;
   createPlayer 3 "Erik" 300000%Z 300000%Z 0%Z "magenta" 0%Z;
   Player.set_isAlive false
     (createPlayer 4 "Hans" 400000%Z 400000%Z 0%Z "cyan" 0%Z)].

(** [digging] once its hole is over. *)
Definition surfaced : Player.t Z :=
  Player.mk 2 "Bjorn" (-50000)%Z 10000%Z 0%Z 2000%Z "lime" false false
    52%Z 5000%Z [Some (mkPoint (-52000) 10000)%Z; None] true 0%Z false 0%Z ∅.

(** [north] after [k] steps with no key held and no hole. *)
Definition straight (k : nat) : Player.t Z :=
  updateRun defaultControls (replicate k (0%Z, 500%Z, noKeys)) north.

(** A classic round of three in which [fallen] is already out. *)
Definition thinned : Game.t Z :=
  Game.mk [fallen; south;
           createPlayer 3 "Erik" 300000%Z 300000%Z 0%Z "magenta" 0%Z]
    Running (Some Classic) [] 0 1000%Z [1] None None 3 ∅ ∅ defaultControls ∅
    1280000%Z 720000%Z.

(** A broom on the field. *)
Definition broom : Powerup.t Z :=
  Powerup.mk 3 (Some CLEAR_OWN_TRAIL) 0%Z 0%Z 10000%Z 0%Z.

End Scenario.

(** * Theorems *)

Section PlayerFacts.
Context {num : Type} {JN : JSNumber num}.
Implicit Types (p q : Player.t num) (path : list (option (Point num))).

Lemma noConsecutiveGaps_point path pt :
  noConsecutiveGaps (path ++ [Some pt]) = noConsecutiveGaps path.
Proof.
  induction path as [|e rest IH]; [done|].
  destruct e as [a|]; simpl.
  - destruct (rest ++ [Some pt]) eqn:E, rest; simpl in *; try done;
      rewrite <- ?E; exact IH.
  - destruct rest as [|[b|] rest']; simpl in *; try done.
Qed.

Lemma noConsecutiveGaps_gap path :
  last path ≠ Some None →
  noConsecutiveGaps (path ++ [None]) = noConsecutiveGaps path.
Proof.
  induction path as [|e rest IH]; [done|].
  intros Hlast.
  destruct rest as [|e' rest'].
  - destruct e; simpl in *; congruence.
  - assert (last (e' :: rest') ≠ Some None) as H' by exact Hlast.
    specialize (IH H').
    destruct e as [a|], e' as [b|]; simpl in *; try done.
Qed.

Lemma pushTrail_noConsecutiveGaps hole x y path :
  noConsecutiveGaps path = true →
  noConsecutiveGaps (pushTrail hole x y path) = true.
Proof.
  intros H. unfold pushTrail.
  destruct hole; simpl.
  - destruct (last path) as [[pt|]|] eqn:E; try done;
      rewrite noConsecutiveGaps_gap; congruence.
  - by rewrite noConsecutiveGaps_point.
Qed.

Lemma updatePlayer_path now rnd controls keyStates p :
  Player.path (updatePlayer now rnd controls keyStates p) = Player.path p
  ∨ ∃ x y,
      Player.path (updatePlayer now rnd controls keyStates p)
      = pushTrail (Player.isMakingHole (updatePlayer now rnd controls keyStates p))
          x y (Player.path p).
Proof.
  unfold updatePlayer.
  destruct (Player.isAlive p); simpl; [|by left].
  right. eauto.
Qed.

Lemma pushTrail_hole x y path :
  pushTrail true x y path = path ∧ last path = Some None
  ∨ pushTrail true x y path = path ++ [None] ∧ last path ≠ Some None.
Proof.
  unfold pushTrail. simpl.
  destruct (last path) as [[pt|]|]; [right|left|right]; done.
Qed.

Lemma holeRun_path controls inputs p :
  holeRun controls inputs p = true →
  (last (Player.path p) = Some None →
   Player.path (updateRun controls inputs p) = Player.path p)
  ∧ (Player.path (updateRun controls inputs p) = Player.path p
     ∨ Player.path (updateRun controls inputs p) = Player.path p ++ [None]).
Proof.
  revert p. induction inputs as [|i rest IH]; intros p Hrun.
  { simpl. by split; [|left]. }
  simpl in Hrun. apply andb_true_iff in Hrun as [Hhole Hrest].
  specialize (IH _ Hrest) as [IH1 IH2].
  unfold updateRun in *. simpl.
  set (q := updatePlayer i.1.1 i.1.2 controls i.2 p) in *.
  destruct (updatePlayer_path i.1.1 i.1.2 controls i.2 p) as [Hsame|(x & y & Hpush)];
    fold q in Hsame || fold q in Hpush.
  - rewrite <- Hsame. by split.
  - rewrite Hhole in Hpush.
    destruct (pushTrail_hole x y (Player.path p)) as [[Hp Hl]|[Hp Hl]];
      rewrite Hp in Hpush.
    + rewrite <- Hpush. by split.
    + assert (last (Player.path q) = Some None) as Hq
        by (rewrite Hpush; apply last_snoc).
      rewrite (IH1 Hq), Hpush. split; [done|by right].
Qed.

Lemma updatePlayer_dead now rnd controls keyStates p :
  Player.isAlive p = false →
  updatePlayer now rnd controls keyStates p = p.
Proof. intros Hdead. unfold updatePlayer. by rewrite Hdead. Qed.

(** C3. [checkCollisions] answers false, whatever the position, the
    playable area and the trails, as soon as the player is making a hole or
    has the INVINCIBLE or the GHOST_MODE effect active. *)
Theorem checkCollisions_immune p playableWidth canvasHeight allPlayers :
  Player.isMakingHole p = true
  ∨ effectActive p INVINCIBLE = true
  ∨ effectActive p GHOST_MODE = true →
  checkCollisions p playableWidth canvasHeight allPlayers = false.
Proof.
  unfold checkCollisions.
  intros [-> | [-> | ->]]; [done | by rewrite orb_true_r |].
  by destruct (_ || _).
Qed.

End PlayerFacts.

Section CollisionFacts.
Context {num : Type} {JN : JSNumber num}.
Implicit Types (p q other : Player.t num) (pts : list (option (Point num))).

Lemma scanPath_spec p other i pts :
  scanPath p other i pts = true ↔
  ∃ k pt, pts !! k = Some (Some pt) ∧ overlaps p other pt = true
          ∧ tested p other (i + k).
Proof.
  revert i. induction pts as [|e rest IH]; intros i; simpl.
  { split; [done|]. by intros (k & pt & H & _). }
  assert (∀ b : bool,
            (b = true ↔ ∃ k pt, rest !! k = Some (Some pt)
                        ∧ overlaps p other pt = true ∧ tested p other (S i + k)) →
            ¬ (∃ pt, e = Some pt ∧ overlaps p other pt = true ∧ tested p other i) →
            (b = true ↔ ∃ k pt, (e :: rest) !! k = Some (Some pt)
                        ∧ overlaps p other pt = true ∧ tested p other (i + k)))
    as Hskip.
  { intros b Hb Hno. rewrite Hb. split.
    - intros (k & pt & H1 & H2 & H3). exists (S k), pt.
      repeat split; [done|done|]. by replace (i + S k) with (S i + k) by lia.
    - intros ([|k] & pt & H1 & H2 & H3).
      + exfalso. apply Hno. exists pt. simpl in H1.
        repeat split; [congruence|done|]. by replace i with (i + 0) by lia.
      + exists k, pt. repeat split; [done|done|].
        by replace (S i + k) with (i + S k) by lia. }
  destruct (Nat.eqb (Player.id p) (Player.id other)
            && (Z.of_nat (length (Player.path other)) - skipSegments
                <=? Z.of_nat i)%Z) eqn:Hwin.
  - apply Hskip; [apply IH|].
    intros (pt & _ & _ & Ht).
    apply andb_true_iff in Hwin as [Hid Hle].
    apply Nat.eqb_eq in Hid. apply Z.leb_le in Hle.
    specialize (Ht Hid). unfold skipSegments in Hle. lia.
  - destruct e as [pt|].
    + destruct (overlaps p other pt) eqn:Hov.
      * split; [intros _|done]. exists 0, pt.
        repeat split; [done|].
        intros Hid. apply andb_false_iff in Hwin as [Hne|Hgt].
        -- apply Nat.eqb_neq in Hne. done.
        -- apply Z.leb_gt in Hgt. unfold skipSegments in Hgt. lia.
      * apply Hskip; [apply IH|].
        intros (pt' & [= <-] & Hyes & _). congruence.
    + apply Hskip; [apply IH|]. by intros (pt' & ? & _).
Qed.

Lemma updatePlayer_path_length now rnd controls keyStates p :
  length (Player.path (updatePlayer now rnd controls keyStates p))
  ≤ S (length (Player.path p)).
Proof.
  destruct (updatePlayer_path now rnd controls keyStates p) as [->|(x & y & ->)];
    [lia|].
  unfold pushTrail.
  destruct (negb _); [rewrite length_app; simpl; lia|].
  destruct (last _) as [[?|]|]; rewrite ?length_app; simpl; lia.
Qed.

Lemma updateRun_path_length controls inputs p :
  length (Player.path (updateRun controls inputs p))
  ≤ length inputs + length (Player.path p).
Proof.
  revert p. induction inputs as [|i rest IH]; intros p; [simpl; lia|].
  unfold updateRun in *. simpl.
  etrans; [apply IH|].
  pose proof (updatePlayer_path_length i.1.1 i.1.2 controls i.2 p). lia.
Qed.

(** C7. In the trail check the last 20 entries of the path are left out
    when the path belongs to a player with the id of the one tested, and
    every recorded point of any other path is put to the circle test; a
    player that is neither immune nor out of bounds collides exactly when
    one of those points overlaps its head. Hence a path of at most 20
    entries never collides with its owner, which is the case of a new
    player during its first 19 steps, straight or not. *)
Theorem checkCollisions_self_exclusion p :
  (∀ other,
     scanPath p other 0 (Player.path other) = true ↔
     ∃ i pt, Player.path other !! i = Some (Some pt)
             ∧ overlaps p other pt = true
             ∧ (Player.id p = Player.id other →
                i + 20 < length (Player.path other)))
  ∧ (∀ playableWidth canvasHeight allPlayers,
       Player.isMakingHole p = false →
       effectActive p INVINCIBLE = false →
       effectActive p GHOST_MODE = false →
       hitsBoundary p playableWidth canvasHeight = false →
       (checkCollisions p playableWidth canvasHeight allPlayers = true ↔
        ∃ other, other ∈ allPlayers
                 ∧ scanPath p other 0 (Player.path other) = true))
  ∧ (∀ other,
       Player.id p = Player.id other →
       length (Player.path other) ≤ 20 →
       scanPath p other 0 (Player.path other) = false)
  ∧ (∀ id name x y angle color score controls inputs,
       length inputs ≤ 19 →
       let q := updateRun controls inputs
                  (createPlayer id name x y angle color score) in
       scanPath q q 0 (Player.path q) = false).
Proof.
  assert (∀ other, Player.id p = Player.id other →
            length (Player.path other) ≤ 20 →
            scanPath p other 0 (Player.path other) = false) as Hshort.
  { intros other Hid Hlen. apply not_true_is_false.
    rewrite scanPath_spec. intros (k & pt & _ & _ & Ht).
    specialize (Ht Hid). lia. }
  repeat split.
  - intros H. apply scanPath_spec in H as (k & pt & ? & ? & ?). by exists k, pt.
  - intros (k & pt & ? & ? & ?). apply scanPath_spec. by exists k, pt.
  - unfold checkCollisions. rewrite H, H0, H1, H2. simpl.
    unfold trailCollision. rewrite existsb_exists.
    intros (other & Hin & Hs). exists other. by rewrite list_elem_of_In.
  - unfold checkCollisions. rewrite H, H0, H1, H2. simpl.
    unfold trailCollision. rewrite existsb_exists.
    intros (other & Hin & Hs). exists other. by rewrite <- list_elem_of_In.
  - exact Hshort.
  - intros id name x y angle color score controls inputs Hlen q.
    apply not_true_is_false. rewrite scanPath_spec.
    intros (k & pt & _ & _ & Ht). specialize (Ht eq_refl).
    pose proof (updateRun_path_length controls inputs
                  (createPlayer id name x y angle color score)) as Hq.
    fold q in Hq. simpl in Hq. lia.
Qed.

End CollisionFacts.

Section FrameFacts.
Context {num : Type} {JN : JSNumber num}.
Implicit Types (p q : Player.t num) (ps : list (Player.t num))
  (u : Powerup.t num) (st : Frame.t num) (g : Game.t num).

(** *** What the effects leave alone *)

Lemma updatePlayer_ledger now rnd controls keyStates p :
  ledger (updatePlayer now rnd controls keyStates p) = ledger p.
Proof.
  unfold updatePlayer, ledger.
  destruct (Player.isAlive p) eqn:E; simpl; by rewrite ?E.
Qed.

Lemma updatePlayer_path_nonempty now rnd controls keyStates p :
  Player.path p ≠ [] →
  Player.path (updatePlayer now rnd controls keyStates p) ≠ [].
Proof.
  intros Hp.
  destruct (updatePlayer_path now rnd controls keyStates p) as [->|(x & y & ->)];
    [done|].
  unfold pushTrail. destruct (negb _); [by destruct (Player.path p)|].
  destruct (last _) as [[?|]|]; by destruct (Player.path p).
Qed.

Lemma teleport_ledger rndX rndY w h p :
  ledger (teleport rndX rndY w h p) = ledger p.
Proof. unfold teleport. by destruct (safeZone _ _) as [[[? ?] ?] ?]. Qed.

Lemma teleport_path rndX rndY w h p :
  ∃ pt, Player.path (teleport rndX rndY w h p)
        = <[length (Player.path p) - 1 := Some pt]> (Player.path p).
Proof. unfold teleport. destruct (safeZone _ _) as [[[? ?] ?] ?]. eauto. Qed.

Lemma clearedTrail_length p : length (clearedTrail p) = 1.
Proof. unfold clearedTrail. by destruct (last _) as [[?|]|]. Qed.

Lemma applyPowerupEffect_ledger now rndX rndY w h i u ps :
  ledger <$> applyPowerupEffect now rndX rndY w h i u ps = ledger <$> ps.
Proof.
  unfold applyPowerupEffect.
  destruct (ps !! i) as [player|] eqn:Hi; [|done].
  assert (∀ q, ledger q = ledger player →
               ledger <$> <[i:=q]> ps = ledger <$> ps) as Hins.
  { intros q Hq. rewrite list_fmap_insert. apply list_insert_id.
    by rewrite list_lookup_fmap, Hi, Hq. }
  destruct (Powerup.type u) as [[]|]; simpl; try done; try by apply Hins.
  - rewrite <- list_fmap_compose. apply list_fmap_ext.
    intros k q _. simpl. by destruct (_ && _).
  - apply Hins, teleport_ledger.
Qed.

Lemma applyPowerupEffect_paths now rndX rndY w h i u ps :
  pathsNonEmpty ps →
  pathsNonEmpty (applyPowerupEffect now rndX rndY w h i u ps).
Proof.
  unfold pathsNonEmpty, applyPowerupEffect. intros Hps.
  destruct (ps !! i) as [player|] eqn:Hi; [|done].
  assert (Player.path player ≠ []) as Hpl.
  { eapply (Forall_lookup_1 _ _ _ _ Hps Hi). }
  destruct (Powerup.type u) as [[]|]; simpl; try done;
    try by apply Forall_insert.
  - apply Forall_fmap. eapply Forall_impl; [exact Hps|].
    intros q Hq. simpl. by destruct (_ && _).
  - apply Forall_insert; [done|]. simpl.
    intros Hnil. pose proof (clearedTrail_length player) as Hl.
    by rewrite Hnil in Hl.
  - apply Forall_insert; [done|].
    destruct (teleport_path rndX rndY w h player) as [pt ->].
    intros Hnil. apply (f_equal length) in Hnil.
    rewrite length_insert in Hnil. by destruct (Player.path player).
Qed.

Lemma noConsecutiveGaps_tail (e : option (Point num))
    (path : list (option (Point num))) :
  noConsecutiveGaps (e :: path) = true → noConsecutiveGaps path = true.
Proof. destruct e, path as [|[?|] ?]; simpl; congruence. Qed.

Lemma noConsecutiveGaps_insert_point (path : list (option (Point num))) i pt :
  noConsecutiveGaps path = true →
  noConsecutiveGaps (<[i := Some pt]> path) = true.
Proof.
  revert i. induction path as [|e rest IH]; intros i H; [done|].
  pose proof (noConsecutiveGaps_tail _ _ H) as Hrest.
  destruct i as [|i]; [exact Hrest|].
  specialize (IH i Hrest). simpl.
  destruct e as [a|].
  - destruct (<[i:=Some pt]> rest); done.
  - destruct rest as [|[b|] rest'], i as [|i]; simpl in *; try done.
Qed.

Lemma updatePlayer_trailOK now rnd controls keyStates p :
  trailOK (Player.path p) →
  trailOK (Player.path (updatePlayer now rnd controls keyStates p)).
Proof.
  intros [Hne Hgaps]. split; [by apply updatePlayer_path_nonempty|].
  destruct (updatePlayer_path now rnd controls keyStates p)
    as [->|(x & y & ->)]; [done|].
  by apply pushTrail_noConsecutiveGaps.
Qed.

Lemma applyPowerupEffect_pathsOK now rndX rndY w h i u ps :
  pathsOK ps →
  pathsOK (applyPowerupEffect now rndX rndY w h i u ps).
Proof.
  unfold pathsOK, applyPowerupEffect. intros Hps.
  destruct (ps !! i) as [player|] eqn:Hi; [|done].
  assert (trailOK (Player.path player)) as [Hne Hgaps].
  { eapply (Forall_lookup_1 _ _ _ _ Hps Hi). }
  destruct (Powerup.type u) as [[]|]; simpl; try done;
    try (apply Forall_insert; by try split).
  - apply Forall_fmap. eapply Forall_impl; [exact Hps|].
    intros q Hq. simpl. by destruct (_ && _).
  - apply Forall_insert; [done|]. simpl. unfold clearedTrail.
    by destruct (last _) as [[?|]|].
  - apply Forall_insert; [done|].
    destruct (teleport_path rndX rndY w h player) as [pt ->]. split.
    + intros Hnil. apply (f_equal length) in Hnil.
      rewrite length_insert in Hnil. by destruct (Player.path player).
    + by apply noConsecutiveGaps_insert_point.
Qed.

(** *** The loop over the powerups *)

Lemma collectPowerups_spec env w h i powerups : ∀ j st,
  let st' := collectPowerups env w h i j powerups st in
  ledger <$> Frame.currentPlayers st' = ledger <$> Frame.currentPlayers st
  ∧ Frame.eliminationOrder st' = Frame.eliminationOrder st
  ∧ Frame.livingPlayersCount st' = Frame.livingPlayersCount st
  ∧ (pathsOK (Frame.currentPlayers st) →
     pathsOK (Frame.currentPlayers st'))
  ∧ (logInv st → logInv st')
  ∧ (∀ k, k ∈ (Frame.collected st').*2 →
          k ∈ (Frame.collected st).*2 ∨ k ∈ Powerup.id <$> powerups).
Proof.
  induction powerups as [|u rest IH]; intros j st; simpl.
  { split_and!; auto. }
  match goal with
  | |- context [collectPowerups env w h i (S j) rest ?s] => set (st1 := s)
  end.
  assert (ledger <$> Frame.currentPlayers st1 = ledger <$> Frame.currentPlayers st
          ∧ Frame.eliminationOrder st1 = Frame.eliminationOrder st
          ∧ Frame.livingPlayersCount st1 = Frame.livingPlayersCount st
          ∧ (pathsOK (Frame.currentPlayers st) →
             pathsOK (Frame.currentPlayers st1))
          ∧ (logInv st → logInv st1)
          ∧ (∀ k, k ∈ (Frame.collected st1).*2 →
               k ∈ (Frame.collected st).*2 ∨ k = Powerup.id u))
    as (H1 & H2 & H3 & H4 & H5 & H6).
  { subst st1. case_bool_decide as Hin; [split_and!; auto|].
    destruct (Frame.currentPlayers st !! i) as [player|]; [|split_and!; auto].
    destruct (reaches player u); [|split_and!; auto].
    simpl. split_and!; try done.
    - apply applyPowerupEffect_ledger.
    - apply applyPowerupEffect_pathsOK.
    - intros [Hnd Hset]. split; simpl.
      + rewrite fmap_app. simpl.
        apply NoDup_app. split_and!; [done| |apply NoDup_singleton].
        intros k Hk ->%list_elem_of_singleton. apply Hin.
        rewrite Hset. by apply elem_of_list_to_set.
      + rewrite fmap_app, list_to_set_app_L. simpl.
        rewrite Hset, (right_id_L ∅ (∪)). apply (comm_L (∪)).
    - intros k. rewrite fmap_app, elem_of_app. simpl.
      rewrite list_elem_of_singleton. tauto. }
  specialize (IH (S j) st1). simpl in IH.
  destruct IH as (I1 & I2 & I3 & I4 & I5 & I6).
  split_and!; try congruence; auto.
  intros k Hk.
  change (Powerup.id <$> u :: rest)
    with (Powerup.id u :: (Powerup.id <$> rest)).
  destruct (I6 k Hk) as [Hk'|Hk'].
  - destruct (H6 k Hk') as [?| ->]; [by left|right; by left].
  - right. by right.
Qed.

(** *** Ledgers *)

Lemma deadIds_insert (l : list (nat * bool * Z)) k id s :
  l !! k = Some (id, true, s) →
  deadIds (<[k := (id, false, s)]> l) ≡ₚ deadIds l ++ [id].
Proof.
  intros Hk. unfold deadIds.
  rewrite insert_take_drop by (by eapply lookup_lt_Some).
  rewrite <- (take_drop_middle l k _ Hk) at 3.
  rewrite !filter_app, !fmap_app.
  rewrite filter_cons_True by done.
  rewrite filter_cons_False by (simpl; congruence).
  simpl. rewrite <- app_assoc. apply Permutation_app_head.
  rewrite Permutation_app_comm. done.
Qed.

Lemma livingCount_take_S (l : list (nat * bool * Z)) k :
  k < length l →
  livingCount (take (S k) l) = livingCount (take k l) + aliveAt l k.
Proof.
  intros Hk. destruct (lookup_lt_is_Some_2 l k Hk) as [[[id a] s] Hl].
  unfold livingCount, aliveAt.
  rewrite (take_S_r _ _ _ Hl), filter_app, length_app, Hl.
  destruct a; [rewrite filter_cons_True by done|
               rewrite filter_cons_False by (simpl; congruence)]; done.
Qed.

Lemma livingCount_take_insert (l : list (nat * bool * Z)) k id s :
  k < length l →
  livingCount (take (S k) (<[k := (id, false, s)]> l)) = livingCount (take k l).
Proof.
  intros Hk. unfold livingCount.
  rewrite (take_S_r _ _ (id, false, s)) by (by apply list_lookup_insert_eq).
  rewrite take_insert_ge by done.
  rewrite filter_app, filter_cons_False by (simpl; congruence).
  by rewrite app_nil_r.
Qed.

(** *** One player of the frame *)

Lemma processPlayer_spec env g st i :
  let st' := processPlayer env g st i in
  let l := ledger <$> Frame.currentPlayers st in
  let l' := ledger <$> Frame.currentPlayers st' in
  ((l' = l
    ∧ Frame.eliminationOrder st' = Frame.eliminationOrder st
    ∧ Frame.livingPlayersCount st' = Frame.livingPlayersCount st + aliveAt l i)
   ∨ (∃ id s, l !! i = Some (id, true, s)
        ∧ l' = <[i := (id, false, s)]> l
        ∧ Frame.eliminationOrder st' = Frame.eliminationOrder st ++ [id]
        ∧ Frame.livingPlayersCount st' = Frame.livingPlayersCount st))
  ∧ (pathsOK (Frame.currentPlayers st) →
     pathsOK (Frame.currentPlayers st'))
  ∧ (logInv st → logInv st')
  ∧ (∀ k, k ∈ (Frame.collected st').*2 →
          k ∈ (Frame.collected st).*2
          ∨ k ∈ Powerup.id <$> Game.activePowerups g).
Proof.
  intros st' l l'. subst st' l l'. unfold processPlayer.
  destruct (Frame.currentPlayers st !! i) as [player0|] eqn:Hi; cycle 1.
  { split_and!; auto. left. unfold aliveAt.
    rewrite list_lookup_fmap, Hi. simpl. split_and!; auto. }
  set (player := updatePlayer _ _ _ _ player0).
  assert (ledger player = ledger player0) as Hl by apply updatePlayer_ledger.
  assert (ledger <$> <[i:=player]> (Frame.currentPlayers st)
          = ledger <$> Frame.currentPlayers st) as Hps.
  { rewrite list_fmap_insert. apply list_insert_id.
    by rewrite list_lookup_fmap, Hi, Hl. }
  assert (pathsOK (Frame.currentPlayers st) →
          pathsOK (<[i:=player]> (Frame.currentPlayers st))) as Hpaths.
  { intros Hne. apply Forall_insert; [done|].
    apply updatePlayer_trailOK.
    eapply (Forall_lookup_1 _ _ _ _ Hne Hi). }
  assert ((ledger <$> Frame.currentPlayers st) !! i = Some (ledger player))
    as Hli by (by rewrite list_lookup_fmap, Hi, Hl).
  destruct (Player.isAlive player) eqn:Halive.
  - destruct (checkCollisions _ _ _ _); simpl.
    + split_and!; auto.
      * right. exists (Player.id player), (Player.score player).
        split_and!; auto.
        -- rewrite Hli. unfold ledger. by rewrite Halive.
        -- by rewrite list_fmap_insert, Hps.
      * intros Hne. apply Forall_insert; [by apply Hpaths|].
        simpl. specialize (Hpaths Hne).
        eapply (Forall_lookup_1 _ _ i _ Hpaths).
        apply list_lookup_insert_eq. by eapply lookup_lt_Some.
    + match goal with
      | |- context [Frame.currentPlayers ?s] =>
          match s with
          | (if _ then _ else ?s1) => set (st1 := s1)
          end
      end.
      assert (∃ st2, (if bool_decide (Game.selectedGameMode g = Some Arcade)
                      then collectPowerups env (Game.canvasWidth g)
                             (Game.canvasHeight g) i 0 (Game.activePowerups g) st1
                      else st1) = st2
                ∧ ledger <$> Frame.currentPlayers st2 = ledger <$> Frame.currentPlayers st1
                ∧ Frame.eliminationOrder st2 = Frame.eliminationOrder st1
                ∧ Frame.livingPlayersCount st2 = Frame.livingPlayersCount st1
                ∧ (pathsOK (Frame.currentPlayers st1) →
                   pathsOK (Frame.currentPlayers st2))
                ∧ (logInv st1 → logInv st2)
                ∧ (∀ k, k ∈ (Frame.collected st2).*2 →
                     k ∈ (Frame.collected st1).*2
                     ∨ k ∈ Powerup.id <$> Game.activePowerups g))
        as (st2 & -> & H1 & H2 & H3 & H4 & H5 & H6).
      { eexists. split; [done|]. case_bool_decide; [|split_and!; auto].
        apply collectPowerups_spec. }
      simpl. split_and!; auto.
      left. split_and!.
      * by rewrite H1.
      * by rewrite H2.
      * rewrite H3. simpl. unfold aliveAt. rewrite Hli. unfold ledger.
        rewrite Halive. lia.
  - simpl. split_and!; auto. left. split_and!; auto.
    unfold aliveAt. rewrite Hli. unfold ledger. rewrite Halive. lia.
Qed.

(** *** All players of the frame *)

Lemma processPlayers_fold env g st0 k :
  k ≤ length (Frame.currentPlayers st0) →
  let st := foldl (processPlayer env g) st0 (seq 0 k) in
  let l0 := ledger <$> Frame.currentPlayers st0 in
  let l := ledger <$> Frame.currentPlayers st in
  (fun v => v.1.1) <$> l = (fun v => v.1.1) <$> l0
  ∧ (fun v => v.2) <$> l = (fun v => v.2) <$> l0
  ∧ (Frame.eliminationOrder st0 ≡ₚ deadIds l0 →
     Frame.eliminationOrder st ≡ₚ deadIds l)
  ∧ Frame.livingPlayersCount st
    = Frame.livingPlayersCount st0 + livingCount (take k l)
  ∧ (pathsOK (Frame.currentPlayers st0) →
     pathsOK (Frame.currentPlayers st))
  ∧ (logInv st0 → logInv st)
  ∧ (∀ x, x ∈ (Frame.collected st).*2 →
          x ∈ (Frame.collected st0).*2
          ∨ x ∈ Powerup.id <$> Game.activePowerups g).
Proof.
  induction k as [|k IH]; intros Hk.
  { simpl. split_and!; auto; try (unfold livingCount; simpl; lia). }
  specialize (IH ltac:(lia)). simpl in IH.
  destruct IH as (Hid & Hsc & Hel & Hliv & Hpa & Hlog & Hcol).
  rewrite seq_S, foldl_app. simpl.
  set (st := foldl (processPlayer env g) st0 (seq 0 k)) in *.
  set (l0 := ledger <$> Frame.currentPlayers st0) in *.
  set (l := ledger <$> Frame.currentPlayers st) in *.
  assert (k < length l) as Hkl.
  { apply (f_equal length) in Hid. unfold l, l0 in Hid |- *.
    rewrite !length_fmap in Hid. rewrite length_fmap. lia. }
  destruct (processPlayer_spec env g st k) as (Hcase & Hpa' & Hlog' & Hcol').
  fold l in Hcase. simpl in Hcase.
  split_and!; auto.
  - destruct Hcase as [(-> & _)|(id & s & Hlk & -> & _)]; [done|].
    rewrite list_fmap_insert, <- Hid. apply list_insert_id.
    by rewrite list_lookup_fmap, Hlk.
  - destruct Hcase as [(-> & _)|(id & s & Hlk & -> & _)]; [done|].
    rewrite list_fmap_insert, <- Hsc. apply list_insert_id.
    by rewrite list_lookup_fmap, Hlk.
  - intros H0. specialize (Hel H0).
    destruct Hcase as [(-> & -> & _)|(id & s & Hlk & -> & -> & _)]; [done|].
    rewrite deadIds_insert by done. by rewrite Hel.
  - destruct Hcase as [(-> & _ & ->)|(id & s & Hlk & -> & _ & ->)].
    + rewrite livingCount_take_S by done. lia.
    + rewrite livingCount_take_insert by done. lia.
  - intros x Hx. destruct (Hcol' x Hx); auto.
Qed.

Lemma processPlayers_spec env g :
  let st := processPlayers env g in
  ids (Frame.currentPlayers st) = ids (Game.players g)
  ∧ Player.score <$> Frame.currentPlayers st = Player.score <$> Game.players g
  ∧ (Game.eliminationOrder g ≡ₚ deadIds (ledger <$> Game.players g) →
     Frame.eliminationOrder st
     ≡ₚ deadIds (ledger <$> Frame.currentPlayers st))
  ∧ Frame.livingPlayersCount st
    = livingCount (ledger <$> Frame.currentPlayers st)
  ∧ (pathsOK (Game.players g) →
     pathsOK (Frame.currentPlayers st))
  ∧ logInv st
  ∧ (∀ x, x ∈ (Frame.collected st).*2 →
          x ∈ Powerup.id <$> Game.activePowerups g).
Proof.
  unfold processPlayers.
  set (st0 := Frame.mk (Game.players g) (Game.eliminationOrder g) ∅ 0 []).
  destruct (processPlayers_fold env g st0 (length (Game.players g)))
    as (Hid & Hsc & Hel & Hliv & Hpa & Hlog & Hcol); [done|].
  simpl in *.
  set (st := foldl (processPlayer env g) st0 (seq 0 (length (Game.players g)))) in *.
  unfold ids. split_and!; auto.
  - rewrite <- !list_fmap_compose in Hid. exact Hid.
  - rewrite <- !list_fmap_compose in Hsc. exact Hsc.
  - rewrite Hliv. simpl. f_equal. apply take_ge.
    apply (f_equal length) in Hid. rewrite !length_fmap in Hid.
    rewrite length_fmap. lia.
  - apply Hlog. split; simpl; [constructor|done].
  - intros x Hx. destruct (Hcol x Hx) as [H|H]; [|done].
    simpl in H. by apply elem_of_nil in H.
Qed.

End FrameFacts.

Section ScorerFacts.
Context {num : Type} {JN : JSNumber num}.
Implicit Types (p q : Player.t num) (ps : list (Player.t num)).

Lemma pointsFor_drop index n :
  sumZ (take (S n) (drop index pointsAwarded))
  = (pointsFor index + sumZ (take n (drop (S index) pointsAwarded)))%Z.
Proof.
  unfold pointsFor.
  destruct (pointsAwarded !! index) as [x|] eqn:Hx.
  - by rewrite (drop_S _ _ _ Hx).
  - apply lookup_ge_None in Hx.
    rewrite !drop_ge by lia. by destruct n.
Qed.

Lemma sumZ_insert (l : list Z) k x y :
  l !! k = Some x → sumZ (<[k:=y]> l) = (sumZ l - x + y)%Z.
Proof.
  revert k. induction l as [|a l IH]; intros [|k] Hk; simplify_eq/=; [lia|].
  rewrite (IH _ Hk). lia.
Qed.

Lemma bonus_here index r rest : bonus index (r :: rest) r = pointsFor index.
Proof.
  unfold bonus. simpl. rewrite decide_True by done.
  by rewrite Nat.add_0_r.
Qed.

Lemma bonus_later index r rest playerId :
  playerId ≠ r → bonus index (r :: rest) playerId = bonus (S index) rest playerId.
Proof.
  intros Hne. unfold bonus. simpl. rewrite decide_False by done.
  destruct (list_find _ rest) as [[k x]|]; simpl; [|done].
  by rewrite Nat.add_succ_r.
Qed.

Lemma bonus_unranked index ranking playerId :
  playerId ∉ ranking → bonus index ranking playerId = 0%Z.
Proof.
  revert index. induction ranking as [|r rest IH]; intros index Hnot; [done|].
  apply not_elem_of_cons in Hnot as [Hne Hrest].
  rewrite bonus_later by done. by apply IH.
Qed.

Lemma bonus_at index ranking k playerId :
  NoDup ranking → ranking !! k = Some playerId →
  bonus index ranking playerId = pointsFor (index + k).
Proof.
  revert index k. induction ranking as [|r rest IH]; intros index k Hnd Hk; [done|].
  apply NoDup_cons in Hnd as [Hr Hnd].
  destruct k as [|k]; simpl in Hk.
  - simplify_eq. by rewrite bonus_here, Nat.add_0_r.
  - rewrite bonus_later.
    + rewrite (IH (S index) k) by done. f_equal. lia.
    + intros ->. apply Hr. by eapply list_elem_of_lookup_2.
Qed.

Lemma set_score_same p : Player.set_score (Player.score p) p = p.
Proof. by destruct p. Qed.

Lemma awardPoints_unscored index ranking ps :
  unscored <$> awardPoints index ranking ps = unscored <$> ps.
Proof.
  revert index ps. induction ranking as [|r rest IH]; intros index ps; [done|].
  simpl. rewrite IH.
  destruct (list_find _ ps) as [[k player]|] eqn:Hfind; [|done].
  apply list_find_Some in Hfind as (Hk & _ & _).
  rewrite list_fmap_insert. apply list_insert_id.
  by rewrite list_lookup_fmap, Hk.
Qed.

Lemma unscored_ids ps ps' :
  unscored <$> ps' = unscored <$> ps → ids ps' = ids ps.
Proof.
  intros H. apply (f_equal (fmap Player.id)) in H.
  by rewrite <- !list_fmap_compose in H.
Qed.

Lemma unscored_ledger ps ps' :
  unscored <$> ps' = unscored <$> ps →
  (fun p => (Player.id p, Player.isAlive p)) <$> ps'
  = (fun p => (Player.id p, Player.isAlive p)) <$> ps.
Proof.
  intros H.
  apply (f_equal (fmap (fun p => (Player.id p, Player.isAlive p)))) in H.
  by rewrite <- !list_fmap_compose in H.
Qed.

Lemma unscored_paths ps ps' :
  unscored <$> ps' = unscored <$> ps →
  pathsOK ps → pathsOK ps'.
Proof.
  intros H Hps. apply (f_equal (fmap Player.path)) in H.
  rewrite <- !list_fmap_compose in H.
  unfold pathsOK in *.
  apply (Forall_fmap Player.path trailOK).
  change (Player.path <$> ps') with ((Player.path ∘ unscored) <$> ps').
  rewrite H. by apply (Forall_fmap Player.path trailOK).
Qed.

Lemma awardPoints_total index ranking ps :
  (∀ r, r ∈ ranking → r ∈ ids ps) →
  totalScore (awardPoints index ranking ps)
  = (totalScore ps + sumZ (take (length ranking) (drop index pointsAwarded)))%Z.
Proof.
  revert index ps. induction ranking as [|r rest IH]; intros index ps Hin.
  { simpl. lia. }
  cbn [awardPoints length]. rewrite pointsFor_drop.
  assert (r ∈ ids ps) as Hr by (apply Hin; left).
  apply list_elem_of_fmap in Hr as (q & Hq & Hqin).
  destruct (list_find_elem_of (fun p => Player.id p = r) ps q Hqin (eq_sym Hq))
    as [[k player] Hfind].
  rewrite Hfind.
  apply list_find_Some in Hfind as (Hk & _ & _).
  rewrite IH.
  - unfold totalScore at 1. rewrite list_fmap_insert. simpl.
    erewrite sumZ_insert by (by rewrite list_lookup_fmap, Hk).
    unfold totalScore. lia.
  - intros r' Hr'. unfold ids. rewrite list_fmap_insert. simpl.
    rewrite list_insert_id.
    + apply Hin. by right.
    + by rewrite list_lookup_fmap, Hk.
Qed.

Lemma awardPoints_awarded index ranking ps :
  NoDup ranking → NoDup (ids ps) →
  awardPoints index ranking ps = awarded index ranking ps.
Proof.
  revert index ps. induction ranking as [|r rest IH]; intros index ps Hnd Hids.
  { unfold awarded. simpl. rewrite <- (list_fmap_id ps) at 1.
    apply list_fmap_ext. intros k p _. simpl.
    rewrite Z.add_0_r. by rewrite set_score_same. }
  apply NoDup_cons in Hnd as [Hr Hnd].
  cbn [awardPoints].
  destruct (list_find _ ps) as [[k player]|] eqn:Hfind.
  - apply list_find_Some in Hfind as (Hk & Hid & _).
    rewrite IH; [|done|]; cycle 1.
    { unfold ids. rewrite list_fmap_insert. simpl.
      rewrite list_insert_id; [done|]. by rewrite list_lookup_fmap, Hk. }
    unfold awarded. rewrite list_fmap_insert. simpl.
    apply list_eq. intros j.
    destruct (decide (j = k)) as [->|Hjk].
    + rewrite list_lookup_insert_eq
        by (rewrite length_fmap; by eapply lookup_lt_Some).
      rewrite list_lookup_fmap, Hk. simpl. f_equal.
      rewrite Hid, bonus_here, bonus_unranked by done.
      destruct player; unfold Player.set_score; simpl. f_equal. lia.
    + rewrite list_lookup_insert_ne by done.
      rewrite !list_lookup_fmap.
      destruct (ps !! j) as [q|] eqn:Hj; [|done]. simpl. f_equal.
      rewrite (bonus_later index r rest (Player.id q)); [done|].
      intros Hq. apply Hjk.
      apply (NoDup_lookup _ j k (Player.id q) Hids); unfold ids;
        rewrite list_lookup_fmap; [by rewrite Hj|rewrite Hk; simpl; congruence].
  - unfold awarded. rewrite IH by done. unfold awarded.
    apply list_fmap_ext. intros j q Hj. simpl.
    rewrite (bonus_later index r rest (Player.id q)); [done|].
    intros Hq. apply list_find_None in Hfind.
    eapply (Forall_lookup_1 _ _ _ _ Hfind Hj). done.
Qed.

Lemma living_dead_ids ps :
  livingPlayerIds ps ++ deadIds (ledger <$> ps) ≡ₚ ids ps.
Proof.
  unfold livingPlayerIds, deadIds, ids.
  induction ps as [|p ps IH]; [done|].
  rewrite fmap_cons.
  destruct (Player.isAlive p) eqn:Ha.
  - rewrite filter_cons_True by done.
    rewrite filter_cons_False by (simpl; congruence).
    simpl. by constructor.
  - rewrite filter_cons_False by congruence.
    rewrite filter_cons_True by done.
    simpl. rewrite <- Permutation_middle. by constructor.
Qed.

Lemma deadIds_ext (l l' : list (nat * bool * Z)) :
  (fun v => v.1) <$> l = (fun v => v.1) <$> l' → deadIds l = deadIds l'.
Proof.
  unfold deadIds. revert l'.
  induction l as [|[[a b] c] l IH]; intros [|[[a' b'] c'] l'] H;
    simpl in H; try discriminate; [done|].
  injection H as -> -> Hrest. specialize (IH _ Hrest).
  rewrite !filter_cons. cbn [fst snd].
  destruct (decide _); [rewrite !fmap_cons; f_equal|]; exact IH.
Qed.

Lemma deadIds_all_alive ps :
  Forall (fun p => Player.isAlive p = true) ps → deadIds (ledger <$> ps) = [].
Proof.
  unfold deadIds. induction 1 as [|p ps Hp _ IH]; [done|].
  rewrite fmap_cons, filter_cons_False by (simpl; congruence). exact IH.
Qed.

Lemma finalRanking_Permutation ps elim :
  elim ≡ₚ deadIds (ledger <$> ps) → finalRanking ps elim ≡ₚ ids ps.
Proof.
  intros H. unfold finalRanking.
  rewrite reverse_Permutation, H. apply living_dead_ids.
Qed.

Lemma finalRanking_unscored ps ps' elim :
  unscored <$> ps' = unscored <$> ps →
  finalRanking ps' elim = finalRanking ps elim.
Proof.
  intros H. unfold finalRanking, livingPlayerIds. f_equal.
  revert ps' H. induction ps as [|p ps IH]; intros [|p' ps'] H;
    try discriminate; [done|].
  rewrite !fmap_cons in H.
  assert (unscored p' = unscored p) as Hp
    by exact (f_equal (fun l => default (unscored p) (head l)) H).
  assert (unscored <$> ps' = unscored <$> ps) as Hrest
    by exact (f_equal tail H).
  rewrite !filter_cons.
  assert (Player.isAlive p' = Player.isAlive p) as ->
    by exact (f_equal Player.isAlive Hp).
  assert (Player.id p' = Player.id p) as Hid
    by exact (f_equal Player.id Hp).
  specialize (IH _ Hrest).
  destruct (decide _); [rewrite !fmap_cons; f_equal|]; done.
Qed.

End ScorerFacts.

Section RunFacts.
Context {num : Type} {JN : JSNumber num}.
Implicit Types (p q : Player.t num) (ps : list (Player.t num))
  (g : Game.t num) (st : Frame.t num).

Lemma managePowerups_keeps env timestamp g :
  let g1 := managePowerups env timestamp g in
  Game.players g1 = Game.players g
  ∧ Game.gameState g1 = Game.gameState g
  ∧ Game.eliminationOrder g1 = Game.eliminationOrder g
  ∧ Game.lastScores g1 = Game.lastScores g
  ∧ Game.selectedGameMode g1 = Game.selectedGameMode g.
Proof.
  unfold managePowerups.
  repeat match goal with
         | |- context [if ?b then _ else _] => destruct b
         end; done.
Qed.

Lemma newPlayers_spec env g n scores :
  ids (newPlayers env g n scores) = (fun i => i + 1) <$> seq 0 n
  ∧ Forall (fun p => Player.isAlive p = true
                     ∧ trailOK (Player.path p)
                     ∧ Player.score p = default 0%Z (scores !! Player.id p))
           (newPlayers env g n scores).
Proof.
  unfold newPlayers, ids. destruct (safeZone _ _) as [[[minX maxX] minY] maxY].
  split.
  - rewrite <- list_fmap_compose. by apply list_fmap_ext.
  - apply Forall_fmap, Forall_forall. by intros i _.
Qed.

Lemma initializeGame_sound env g n scores :
  sound (initializeGame env g n scores).
Proof.
  destruct (newPlayers_spec env g n scores) as [Hids Hall].
  split; unfold roundInv, initializeGame;
    cbn [Game.players Game.eliminationOrder].
  - right. split.
    + rewrite Hids. apply NoDup_fmap_2; [|apply NoDup_seq].
      intros a b. lia.
    + rewrite deadIds_all_alive; [done|].
      eapply Forall_impl; [exact Hall|]. by intros p (? & _).
  - eapply Forall_impl; [exact Hall|]. by intros p (_ & ? & _).
Qed.

Lemma sound_same g g' :
  Game.players g' = Game.players g →
  Game.eliminationOrder g' = Game.eliminationOrder g →
  sound g → sound g'.
Proof. unfold sound, roundInv. by intros -> ->. Qed.

Lemma resumeGame_sound now g : sound g → sound (resumeGame now g).
Proof.
  unfold resumeGame.
  destruct (Game.pauseStartTime g) as [t0|]; [|by apply sound_same].
  intros [Hround Hpaths].
  assert (ledger <$> (shiftEffects (now - t0) <$> Game.players g)
          = ledger <$> Game.players g) as Hl.
  { rewrite <- list_fmap_compose. by apply list_fmap_ext. }
  split; unfold roundInv; cbn [Game.players Game.eliminationOrder].
  - destruct Hround as [->|[Hnd Hel]]; [by left|right].
    split.
    + unfold ids in *. by rewrite <- list_fmap_compose.
    + by rewrite Hl.
  - apply Forall_fmap. eapply Forall_impl; [exact Hpaths|]. done.
Qed.

Lemma handleKeyDown_sound env key g : sound g → sound (handleKeyDown env key g).
Proof.
  intros Hg. unfold handleKeyDown.
  assert (∀ t, sound (bindKey key t g)) as Hbind.
  { intros t. unfold bindKey.
    repeat match goal with
           | |- context [if ?b then _ else _] => destruct b
           end; by apply (sound_same g). }
  assert (sound
    (if isSpace key && bool_decide (Game.gameState g = WaitingToStart)
        && bool_decide (is_Some (Game.selectedGameMode g))
        && bool_decide (Game.waitingForKeyBinding g = None)
     then initializeGame (key_init env) g (Game.selectedPlayerCount g) ∅
     else if isSpace key && bool_decide (Game.gameState g = Running)
     then pauseGame (key_now env) g
     else if isSpace key && bool_decide (Game.gameState g = Paused)
     then resumeGame (key_now env) g
     else if bool_decide (key = "enter")
             && bool_decide (Game.gameState g = GameOver)
     then initializeGame (key_init env) g (Game.selectedPlayerCount g)
            (Game.lastScores g)
     else if bool_decide (key = "enter")
             && bool_decide (Game.gameState g = SessionOver)
     then returnToMenu (key_names env) g
     else setKeyState key true g)) as Hrest.
  { repeat match goal with
           | |- context [if ?b then _ else _] => destruct b
           end;
      try apply initializeGame_sound;
      try (by apply resumeGame_sound);
      try (by apply (sound_same g)).
    split; [by left|constructor]. }
  destruct (Game.waitingForKeyBinding g) as [t|], (Game.gameState g); auto.
Qed.

Lemma handleMouseClick_sound rnd hit g :
  sound g → sound (handleMouseClick rnd hit g).
Proof.
  intros Hg. unfold handleMouseClick.
  destruct (negb _); [done|].
  destruct hit as [[| | |]|]; try done;
    repeat match goal with
           | |- context [if ?b then _ else _] => destruct b
           end; try done; by apply (sound_same g).
Qed.

Lemma updateStep_sound env g : sound g → sound (updateStep env g).
Proof.
  intros [Hround Hpaths]. unfold updateStep.
  destruct (processPlayers_spec env g)
    as (Hids & Hsc & Hel & Hliv & Hpa & Hlog & Hcol).
  set (st := processPlayers env g) in *.
  assert (roundInv g → Game.players g ≠ [] →
          NoDup (ids (Frame.currentPlayers st))
          ∧ Frame.eliminationOrder st
            ≡ₚ deadIds (ledger <$> Frame.currentPlayers st)) as Hframe.
  { intros [Hnil|[Hnd Hperm]] Hne; [done|].
    split; [by rewrite Hids|by apply Hel]. }
  destruct (bool_decide (Frame.livingPlayersCount st ≤ 1)
            && bool_decide (1 < length (Frame.currentPlayers st))) eqn:Hend.
  - apply andb_true_iff in Hend as [_ Hlen]. apply bool_decide_eq_true in Hlen.
    assert (Game.players g ≠ []) as Hne.
    { intros Hnil. apply (f_equal length) in Hids. unfold ids in Hids.
      rewrite !length_fmap, Hnil in Hids. simpl in Hids. lia. }
    destruct (Hframe Hround Hne) as [Hnd Hperm].
    unfold roundEnd.
    set (ranking := finalRanking _ _).
    pose proof (awardPoints_unscored 0 ranking (Frame.currentPlayers st)) as Hun.
    split; unfold roundInv; cbn [Game.players Game.eliminationOrder].
    + right. split.
      * by rewrite (unscored_ids _ _ Hun).
      * rewrite Hperm. apply reflexive_eq, deadIds_ext.
        rewrite <- !list_fmap_compose. symmetry.
        exact (unscored_ledger _ _ Hun).
    + eapply unscored_paths; [exact Hun|]. by apply Hpa.
  - split; unfold roundInv; cbn [Game.players Game.eliminationOrder];
      [|by apply Hpa].
    destruct (decide (Game.players g = [])) as [Hnil|Hne].
    + left. apply (f_equal length) in Hids. unfold ids in Hids.
      rewrite !length_fmap, Hnil in Hids.
      by destruct (Frame.currentPlayers st).
    + right. by apply Hframe.
Qed.

Lemma gameLoop_sound env timestamp g :
  sound g → sound (gameLoop env timestamp g).
Proof.
  intros Hg. unfold gameLoop.
  destruct (bool_decide (Game.gameState g = Paused)); [done|].
  destruct (managePowerups_keeps env timestamp g) as (Hp & _ & He & _).
  assert (sound (managePowerups env timestamp g)) as Hg1
    by (by apply (sound_same g)).
  destruct (bool_decide _); [by apply updateStep_sound|done].
Qed.

Lemma handle_sound g e : sound g → sound (handle g e).
Proof.
  destruct e; simpl.
  - apply handleKeyDown_sound.
  - by apply sound_same.
  - apply handleMouseClick_sound.
  - by apply sound_same.
  - apply gameLoop_sound.
Qed.

Lemma run_sound g events : sound g → sound (run g events).
Proof.
  revert g. induction events as [|e events IH]; intros g Hg; [done|].
  apply IH, handle_sound, Hg.
Qed.

Lemma initialGame_sound playerCount controls rnd w h :
  sound (initialGame (num := num) playerCount controls rnd w h).
Proof. split; [by left|constructor]. Qed.

(** *** The roster *)

Lemma rosterInv_same g g' :
  Game.players g' = Game.players g →
  Game.gameState g' = Game.gameState g →
  Game.selectedPlayerCount g' = Game.selectedPlayerCount g →
  rosterInv g → rosterInv g'.
Proof. unfold rosterInv. by intros -> -> ->. Qed.

Lemma rosterInv_menu g :
  Game.gameState g = WaitingToStart → rosterInv g → Game.players g = [].
Proof. intros Hst [Hnil|[Hne _]]; [done|]. by rewrite Hst in Hne. Qed.

Lemma rosterInv_nil g : Game.players g = [] → rosterInv g.
Proof. by left. Qed.

Lemma initializeGame_rosterInv env g scores :
  rosterInv (initializeGame env g (Game.selectedPlayerCount g) scores).
Proof.
  right. unfold initializeGame.
  cbn [Game.players Game.gameState Game.selectedPlayerCount].
  split; [done|]. apply newPlayers_spec.
Qed.

Lemma handleKeyDown_rosterInv env key g :
  rosterInv g → rosterInv (handleKeyDown env key g).
Proof.
  intros Hg. unfold handleKeyDown.
  assert (∀ t, Game.players g = [] → rosterInv (bindKey key t g)) as Hbind.
  { intros t Hnil. apply rosterInv_nil. unfold bindKey.
    repeat match goal with
           | |- context [if ?b then _ else _] => destruct b
           end; done. }
  assert (rosterInv (resumeGame (key_now env) g)) as Hresume.
  { unfold resumeGame.
    destruct (Game.pauseStartTime g) as [t0|]; cycle 1.
    - destruct Hg as [Hnil|[_ Hids]]; [by left|right]. by split.
    - destruct Hg as [Hnil|[_ Hids]]; [left|right];
        cbn [Game.players Game.gameState Game.selectedPlayerCount].
      + by rewrite Hnil.
      + split; [done|]. unfold ids in *. by rewrite <- list_fmap_compose. }
  destruct (Game.waitingForKeyBinding g) as [t|] eqn:Hw,
           (Game.gameState g) eqn:Hst;
    try (apply Hbind; by apply rosterInv_menu);
    repeat match goal with
           | |- context [if ?b then _ else _] => destruct b eqn:?
           end;
    try apply initializeGame_rosterInv;
    try exact Hresume;
    try (by apply rosterInv_nil);
    try (apply (rosterInv_same g); [done|by rewrite ?Hst|done|done]);
    destruct Hg as [Hnil|[_ Hids]]; (by left) || (right; by split).
Qed.

Lemma handleMouseClick_rosterInv rnd hit g :
  rosterInv g → rosterInv (handleMouseClick rnd hit g).
Proof.
  intros Hg. unfold handleMouseClick.
  destruct (bool_decide (Game.gameState g = WaitingToStart)) eqn:Hst;
    simpl; [|done].
  apply bool_decide_eq_true in Hst.
  apply rosterInv_nil.
  pose proof (rosterInv_menu g Hst Hg) as Hnil.
  destruct hit as [[| | |]|]; try done;
    repeat match goal with
           | |- context [if ?b then _ else _] => destruct b
           end; done.
Qed.

Lemma updateStep_rosterInv env g :
  Game.gameState g = Running → rosterInv g → rosterInv (updateStep env g).
Proof.
  intros Hrun Hg. unfold updateStep.
  destruct (processPlayers_spec env g) as (Hids & _).
  set (st := processPlayers env g) in *.
  assert (Game.players g = [] → Frame.currentPlayers st = []) as Hnil.
  { intros Hn. rewrite Hn in Hids. unfold ids in Hids.
    by apply fmap_nil_inv in Hids. }
  destruct (_ && _) eqn:Hend.
  - unfold roundEnd.
    pose proof (awardPoints_unscored 0
                  (finalRanking (Frame.currentPlayers st)
                     (Frame.eliminationOrder st))
                  (Frame.currentPlayers st)) as Hun.
    apply unscored_ids in Hun.
    destruct Hg as [Hn|[_ Hroster]].
    + apply andb_true_iff in Hend as [_ Hlen].
      apply bool_decide_eq_true in Hlen. rewrite (Hnil Hn) in Hlen.
      simpl in Hlen. lia.
    + right. cbn [Game.players Game.gameState Game.selectedPlayerCount].
      split; [by destruct (sessionWon _)|]. by rewrite Hun, Hids.
  - destruct Hg as [Hn|[Hne Hroster]]; [left; by apply Hnil|right].
    cbn [Game.players Game.gameState Game.selectedPlayerCount].
    split; [done|]. by rewrite Hids.
Qed.

Lemma handle_rosterInv g e : rosterInv g → rosterInv (handle g e).
Proof.
  intros Hg. destruct e as [env key|key|rnd hit|w h|env timestamp]; simpl.
  - by apply handleKeyDown_rosterInv.
  - by apply (rosterInv_same g).
  - by apply handleMouseClick_rosterInv.
  - by apply (rosterInv_same g).
  - unfold gameLoop. destruct (bool_decide _); [done|].
    destruct (managePowerups_keeps env timestamp g) as (Hp & Hs & _).
    assert (Game.selectedPlayerCount (managePowerups env timestamp g)
            = Game.selectedPlayerCount g) as Hc.
    { unfold managePowerups.
      repeat match goal with
             | |- context [if ?b then _ else _] => destruct b
             end; done. }
    assert (rosterInv (managePowerups env timestamp g)) as Hg1
      by (by apply (rosterInv_same g)).
    case_bool_decide as Hrun; [by apply updateStep_rosterInv|done].
Qed.

Lemma run_rosterInv g events : rosterInv g → rosterInv (run g events).
Proof.
  revert g. induction events as [|e events IH]; intros g Hg; [done|].
  apply IH, handle_rosterInv, Hg.
Qed.

(** Enter on the round-over screen starts a round with the same players
    and the scores that [lastScores] holds. *)
Lemma next_round_scores env g :
  Game.gameState g = GameOver →
  rosterInv g → Game.players g ≠ [] →
  (∀ p, p ∈ Game.players g →
        Game.lastScores g !! Player.id p = Some (Player.score p)) →
  let g' := handleKeyDown env "enter" g in
  Game.gameState g' = Running
  ∧ ids (Game.players g') = ids (Game.players g)
  ∧ Player.score <$> Game.players g' = Player.score <$> Game.players g.
Proof.
  intros Hst [Hnil|[_ Hroster]] Hne Hlast; [done|].
  assert (handleKeyDown env "enter" g
          = initializeGame (key_init env) g (Game.selectedPlayerCount g)
              (Game.lastScores g)) as ->.
  { unfold handleKeyDown. rewrite Hst. simpl.
    by destruct (Game.waitingForKeyBinding g). }
  unfold initializeGame. cbn [Game.players Game.gameState].
  destruct (newPlayers_spec (key_init env) g (Game.selectedPlayerCount g)
              (Game.lastScores g)) as [Hids Hall].
  set (new := newPlayers _ _ _ _) in *.
  assert (ids new = ids (Game.players g)) as Heq by (by rewrite Hids, Hroster).
  split_and!; [done|done|].
  apply list_eq. intros j. rewrite !list_lookup_fmap.
  apply (f_equal (fun l => l !! j)) in Heq. unfold ids in Heq.
  rewrite !list_lookup_fmap in Heq.
  destruct (new !! j) as [p|] eqn:Hp, (Game.players g !! j) as [q|] eqn:Hq;
    simpl in *; try done.
  f_equal. injection Heq as Hid.
  rewrite Forall_forall in Hall.
  destruct (Hall p (list_elem_of_lookup_2 _ _ _ Hp)) as (_ & _ & ->).
  by rewrite Hid, (Hlast q (list_elem_of_lookup_2 _ _ _ Hq)).
Qed.

(** *** Players that are out *)

Lemma applyPowerupEffect_dead now rndX rndY w h i u ps j p :
  (∀ player, ps !! i = Some player → Player.isAlive player = true) →
  ps !! j = Some p → Player.isAlive p = false →
  applyPowerupEffect now rndX rndY w h i u ps !! j = Some p.
Proof.
  intros Hi Hj Hdead. unfold applyPowerupEffect.
  destruct (ps !! i) as [player|] eqn:Hpl; [|done].
  assert (i ≠ j) as Hij.
  { intros ->. specialize (Hi player eq_refl). congruence. }
  destruct (Powerup.type u) as [[]|]; simpl; try done;
    try (by rewrite list_lookup_insert_ne).
  rewrite list_lookup_fmap, Hj. simpl.
  by rewrite Hdead, andb_false_r.
Qed.

Lemma collectPowerups_dead env w h i powerups : ∀ j0 st j p,
  (∀ player, Frame.currentPlayers st !! i = Some player →
             Player.isAlive player = true) →
  Frame.currentPlayers st !! j = Some p → Player.isAlive p = false →
  Frame.currentPlayers (collectPowerups env w h i j0 powerups st) !! j = Some p.
Proof.
  induction powerups as [|u rest IH]; intros j0 st j p Hi Hj Hdead; [done|].
  simpl.
  match goal with
  | |- context [collectPowerups env w h i (S j0) rest ?s] => set (st1 := s)
  end.
  assert ((∀ player, Frame.currentPlayers st1 !! i = Some player →
                     Player.isAlive player = true)
          ∧ Frame.currentPlayers st1 !! j = Some p) as [Hi1 Hj1].
  { subst st1. case_bool_decide; [done|].
    destruct (Frame.currentPlayers st !! i) as [pl|] eqn:Hpl; [|by rewrite Hpl].
    destruct (reaches pl u); [|by rewrite Hpl].
    simpl. split.
    - intros player Hlook.
      pose proof (applyPowerupEffect_ledger (effect_now env i j0)
                    (teleport_rndX env i j0) (teleport_rndY env i j0) w h i u
                    (Frame.currentPlayers st)) as Hl.
      apply (f_equal (fun l => l !! i)) in Hl.
      rewrite !list_lookup_fmap, Hlook, Hpl in Hl.
      assert (Player.isAlive player = Player.isAlive pl) as ->
        by exact (f_equal (fun o => default true ((fun v => v.1.2) <$> o)) Hl).
      by apply Hi.
    - apply applyPowerupEffect_dead; [|done|done].
      intros player Hp. apply Hi. by rewrite <- Hp. }
  by apply IH.
Qed.

Lemma processPlayer_dead env g st i j p :
  Frame.currentPlayers st !! j = Some p → Player.isAlive p = false →
  Frame.currentPlayers (processPlayer env g st i) !! j = Some p.
Proof.
  intros Hj Hdead. unfold processPlayer.
  destruct (Frame.currentPlayers st !! i) as [player0|] eqn:Hi; [|done].
  set (player := updatePlayer _ _ _ _ player0).
  assert (<[i:=player]> (Frame.currentPlayers st) !! j = Some p) as Hps.
  { destruct (decide (i = j)) as [->|Hij].
    - rewrite list_lookup_insert_eq by (by eapply lookup_lt_Some).
      subst player. rewrite Hi in Hj. injection Hj as ->.
      by rewrite updatePlayer_dead.
    - by rewrite list_lookup_insert_ne. }
  destruct (Player.isAlive player) eqn:Halive; [|done].
  assert (i ≠ j) as Hij.
  { intros ->.
    rewrite list_lookup_insert_eq in Hps by (by eapply lookup_lt_Some).
    injection Hps as Hp. rewrite Hp in Halive. congruence. }
  destruct (checkCollisions _ _ _ _); simpl.
  - by rewrite list_lookup_insert_ne.
  - case_bool_decide; [|done].
    apply collectPowerups_dead; [|done|done].
    simpl. intros pl.
    rewrite list_lookup_insert_eq by (by eapply lookup_lt_Some).
    by intros [= <-].
Qed.

Lemma processPlayers_dead env g j p :
  Game.players g !! j = Some p → Player.isAlive p = false →
  Frame.currentPlayers (processPlayers env g) !! j = Some p.
Proof.
  intros Hj Hdead. unfold processPlayers.
  generalize (length (Game.players g)). intros n.
  induction n as [|n IH]; [done|].
  rewrite seq_S, foldl_app. simpl. by apply processPlayer_dead.
Qed.

Lemma gameLoop_dead env timestamp g j p :
  Game.players g !! j = Some p → Player.isAlive p = false →
  ∃ p', Game.players (gameLoop env timestamp g) !! j = Some p'
        ∧ unscored p' = unscored p.
Proof.
  intros Hj Hdead. unfold gameLoop.
  destruct (bool_decide _); [by exists p|].
  destruct (managePowerups_keeps env timestamp g) as (Hp & _).
  set (g1 := managePowerups env timestamp g) in *.
  rewrite <- Hp in Hj.
  destruct (bool_decide _); [|by exists p].
  pose proof (processPlayers_dead env g1 j p Hj Hdead) as Hst.
  unfold updateStep. destruct (_ && _); [|by exists p].
  unfold roundEnd. cbn [Game.players].
  set (ranking := finalRanking _ _).
  pose proof (awardPoints_unscored 0 ranking
                (Frame.currentPlayers (processPlayers env g1))) as Hun.
  apply (f_equal (fun l => l !! j)) in Hun.
  rewrite !list_lookup_fmap, Hst in Hun.
  destruct (awardPoints _ _ _ !! j) as [p'|]; [|discriminate Hun].
  exists p'. split; [done|].
  exact (f_equal (default (unscored p)) Hun).
Qed.

End RunFacts.

Section RoundFacts.
Context {num : Type} {JN : JSNumber num}.
Implicit Types (p q : Player.t num) (ps : list (Player.t num))
  (g : Game.t num) (st : Frame.t num).

Lemma livingCount_ledger ps :
  livingCount (ledger <$> ps) = length (livingPlayerIds ps).
Proof.
  unfold livingCount, livingPlayerIds. rewrite length_fmap.
  induction ps as [|p ps IH]; [done|].
  rewrite fmap_cons, !filter_cons. cbn [ledger fst snd].
  destruct (decide (Player.isAlive p = true)); simpl; by rewrite IH.
Qed.

(** A frame that takes a running game out of the running state is one in
    which the round-end block was run. *)
Lemma gameLoop_round_end env timestamp g :
  Game.gameState g = Running →
  Game.gameState (gameLoop env timestamp g) ≠ Running →
  let g1 := managePowerups env timestamp g in
  let st := processPlayers env g1 in
  gameLoop env timestamp g
  = roundEnd g1 st
      (filter (fun u => Powerup.id u ∉ Frame.collectedPowerupIds st)
              (Game.activePowerups g1))
  ∧ Frame.livingPlayersCount st ≤ 1
  ∧ 1 < length (Frame.currentPlayers st).
Proof.
  intros Hrun. unfold gameLoop.
  rewrite bool_decide_eq_false_2 by (rewrite Hrun; done).
  destruct (managePowerups_keeps env timestamp g) as (_ & Hgs & _).
  rewrite bool_decide_eq_true_2 by (by rewrite Hgs).
  unfold updateStep.
  destruct (bool_decide (_ ≤ 1)) eqn:H1, (bool_decide (1 < _)) eqn:H2;
    simpl; try (intros Hne; exfalso; apply Hne; by rewrite Hgs).
  intros _. apply bool_decide_eq_true in H1, H2. done.
Qed.

(** The state of the frame at the end of a round of a sound game. *)
Lemma round_end_frame env g :
  sound g →
  let st := processPlayers env g in
  1 < length (Frame.currentPlayers st) →
  NoDup (ids (Frame.currentPlayers st))
  ∧ Frame.eliminationOrder st ≡ₚ deadIds (ledger <$> Frame.currentPlayers st)
  ∧ ids (Frame.currentPlayers st) = ids (Game.players g)
  ∧ Player.score <$> Frame.currentPlayers st = Player.score <$> Game.players g
  ∧ Frame.livingPlayersCount st
    = length (livingPlayerIds (Frame.currentPlayers st)).
Proof.
  intros [Hround Hpaths] st Hlen.
  destruct (processPlayers_spec env g)
    as (Hids & Hsc & Hel & Hliv & _).
  fold st in Hids, Hsc, Hel, Hliv.
  destruct Hround as [Hnil|[Hnd Hperm]].
  { apply (f_equal length) in Hids. unfold ids in Hids.
    rewrite !length_fmap, Hnil in Hids. simpl in Hids. lia. }
  split_and!; auto.
  - by rewrite Hids.
  - by rewrite Hliv, livingCount_ledger.
Qed.

(** What the round-end block does to a sound running game: [ps0] are the
    players as the update loop left them. *)
Lemma round_end_summary env timestamp g :
  sound g →
  Game.gameState g = Running →
  Game.gameState (gameLoop env timestamp g) ≠ Running →
  let g' := gameLoop env timestamp g in
  let ranking := finalRanking (Game.players g') (Game.eliminationOrder g') in
  ∃ ps0,
    ids ps0 = ids (Game.players g)
    ∧ Player.score <$> ps0 = Player.score <$> Game.players g
    ∧ Game.players g' = awarded 0 ranking ps0
    ∧ ranking = finalRanking ps0 (Game.eliminationOrder g')
    ∧ ranking ≡ₚ ids (Game.players g)
    ∧ NoDup ranking
    ∧ length (livingPlayerIds (Game.players g')) ≤ 1
    ∧ 1 < length (Game.players g)
    ∧ Game.lastScores g' = scoresOf (Game.players g')
    ∧ Game.gameState g'
      = (if sessionWon (Game.lastScores g') then SessionOver else GameOver)
    ∧ totalScore (Game.players g')
      = (totalScore (Game.players g)
         + sumZ (take (length (Game.players g)) pointsAwarded))%Z.
Proof.
  intros Hg Hrun Hend g' ranking.
  destruct (gameLoop_round_end env timestamp g Hrun Hend) as (Heq & Hliv & Hlen).
  destruct (managePowerups_keeps env timestamp g) as (Hp & Hgs & He & _).
  set (g1 := managePowerups env timestamp g) in *.
  assert (sound g1) as Hg1 by (by apply (sound_same g)).
  destruct (round_end_frame env g1 Hg1 Hlen)
    as (Hnd & Hperm & Hids & Hsc & Hcount).
  set (st := processPlayers env g1) in *.
  set (ps0 := Frame.currentPlayers st) in *.
  set (ranking0 := finalRanking ps0 (Frame.eliminationOrder st)).
  pose proof (awardPoints_unscored 0 ranking0 ps0) as Hun.
  assert (ranking0 ≡ₚ ids ps0) as Hrank
    by (by apply finalRanking_Permutation).
  assert (NoDup ranking0) as Hndr by (by rewrite Hrank).
  assert (Game.players g' = awardPoints 0 ranking0 ps0) as Hpl
    by (subst g'; by rewrite Heq).
  assert (Game.eliminationOrder g' = Frame.eliminationOrder st) as Hel
    by (subst g'; by rewrite Heq).
  assert (ranking = ranking0) as Hr.
  { subst ranking. rewrite Hpl, Hel. by apply finalRanking_unscored. }
  rewrite Hp in Hids, Hsc.
  exists ps0. rewrite Hr. split_and!; auto.
  - rewrite Hpl. by apply awardPoints_awarded.
  - by rewrite Hel.
  - by rewrite Hrank, Hids.
  - rewrite Hpl.
    assert (livingPlayerIds (awardPoints 0 ranking0 ps0) = livingPlayerIds ps0)
      as Hlive.
    { pose proof (finalRanking_unscored _ _ [] Hun) as Hf.
      unfold finalRanking in Hf. by rewrite !app_nil_r in Hf. }
    rewrite Hlive. lia.
  - apply (f_equal length) in Hids. unfold ids in Hids.
    rewrite !length_fmap in Hids. lia.
  - subst g'. by rewrite Heq.
  - subst g'. by rewrite Heq.
  - rewrite Hpl, awardPoints_total.
    + unfold totalScore. rewrite Hsc.
      change (drop 0 pointsAwarded) with pointsAwarded.
      assert (length ranking0 = length (Game.players g)) as ->; [|done].
      rewrite Hrank, Hids. unfold ids. by rewrite length_fmap.
    + intros r Hr'. by rewrite <- Hrank.
Qed.

End RoundFacts.

Section RoundClaims.
Context {num : Type} {JN : JSNumber num}.
Implicit Types (p q : Player.t num) (ps : list (Player.t num))
  (g : Game.t num).

(** C10. The path of a player is never empty. [createPlayer] starts it
    with exactly one point, [updatePlayer] only appends to it, and
    [applyPowerupEffect] keeps every path non-empty: CLEAR_OWN_TRAIL leaves
    a single entry, the last one if it is a point and the current position
    otherwise, and RANDOM_TELEPORT overwrites the last entry only. So every
    player of every state that the program reaches has a path of length at
    least 1. *)
Theorem path_never_empty :
  (∀ id name x y angle color score,
     Player.path (createPlayer id name x y angle color score)
     = [Some (mkPoint x y)])
  ∧ (∀ now rnd controls keyStates p,
       ∃ added,
         Player.path (updatePlayer now rnd controls keyStates p)
         = Player.path p ++ added)
  ∧ (∀ now rndX rndY w h i u ps,
       pathsNonEmpty ps →
       pathsNonEmpty (applyPowerupEffect now rndX rndY w h i u ps))
  ∧ (∀ now rndX rndY w h i u ps player,
       ps !! i = Some player →
       Powerup.type u = Some CLEAR_OWN_TRAIL →
       ∃ q, applyPowerupEffect now rndX rndY w h i u ps !! i = Some q
            ∧ Player.path q
              = [Some (match last (Player.path player) with
                       | Some (Some pt) => pt
                       | _ => mkPoint (Player.x player) (Player.y player)
                       end)])
  ∧ (∀ now rndX rndY w h i u ps player,
       ps !! i = Some player →
       Powerup.type u = Some RANDOM_TELEPORT →
       ∃ q pt, applyPowerupEffect now rndX rndY w h i u ps !! i = Some q
               ∧ Player.path q
                 = <[length (Player.path player) - 1 := Some pt]>
                     (Player.path player))
  ∧ (∀ playerCount controls rnd w h events p,
       p ∈ Game.players (run (initialGame playerCount controls rnd w h) events) →
       1 ≤ length (Player.path p)).
Proof.
  split_and!.
  - done.
  - intros now rnd controls keyStates p.
    destruct (updatePlayer_path now rnd controls keyStates p)
      as [->|(x & y & ->)]; [exists []; by rewrite app_nil_r|].
    unfold pushTrail. destruct (negb _); [eauto|].
    destruct (last _) as [[?|]|]; eauto.
    exists []. by rewrite app_nil_r.
  - apply applyPowerupEffect_paths.
  - intros now rndX rndY w h i u ps player Hi Hty.
    unfold applyPowerupEffect. rewrite Hi, Hty.
    eexists. split.
    + apply list_lookup_insert_eq. by eapply lookup_lt_Some.
    + simpl. unfold clearedTrail. by destruct (last _) as [[?|]|].
  - intros now rndX rndY w h i u ps player Hi Hty.
    unfold applyPowerupEffect. rewrite Hi, Hty.
    destruct (teleport_path rndX rndY w h player) as [pt Hpt].
    eexists _, pt. split; [|exact Hpt].
    apply list_lookup_insert_eq. by eapply lookup_lt_Some.
  - intros playerCount controls rnd w h events p Hp.
    pose proof (run_sound _ events
                  (initialGame_sound playerCount controls rnd w h)) as [_ Hpaths].
    unfold pathsOK in Hpaths. rewrite Forall_forall in Hpaths.
    destruct (Hpaths p Hp) as [Hne _].
    destruct (Player.path p); simpl; [done|lia].
Qed.

(** C6. One call of [updatePlayer] keeps a path free of consecutive gap
    markers free of them, and a run of calls that all end with the player
    making a hole appends at most one gap marker: the path is unchanged or
    has grown by a single marker. No path of any state that the program
    reaches has two gap markers in a row. *)
Theorem updatePlayer_gap_collapsing controls :
  (∀ now rnd keyStates p,
     noConsecutiveGaps (Player.path p) = true →
     noConsecutiveGaps
       (Player.path (updatePlayer now rnd controls keyStates p)) = true)
  ∧ (∀ inputs p,
       holeRun controls inputs p = true →
       Player.path (updateRun controls inputs p) = Player.path p
       ∨ Player.path (updateRun controls inputs p) = Player.path p ++ [None])
  ∧ (∀ playerCount rnd w h events p,
       p ∈ Game.players (run (initialGame playerCount controls rnd w h) events) →
       noConsecutiveGaps (Player.path p) = true).
Proof.
  split_and!.
  - intros now rnd keyStates p H.
    destruct (updatePlayer_path now rnd controls keyStates p)
      as [->|(x & y & ->)]; [done|].
    by apply pushTrail_noConsecutiveGaps.
  - intros inputs p H. by apply holeRun_path.
  - intros playerCount rnd w h events p Hp.
    pose proof (run_sound _ events
                  (initialGame_sound playerCount controls rnd w h)) as [_ Hpaths].
    unfold pathsOK in Hpaths. rewrite Forall_forall in Hpaths.
    by destruct (Hpaths p Hp) as [_ Hgaps].
Qed.

(** C9. A player whose [isAlive] flag is false is left exactly as it is by
    [updatePlayer]: position, angle, path, hole state, effects and every
    other field, whatever the clock, the random draw and the keys held.
    A whole frame leaves such a player unchanged but for the score that the
    end of the round may add. *)
Theorem updatePlayer_dead_noop :
  (∀ now rnd controls keyStates p,
     Player.isAlive p = false →
     updatePlayer now rnd controls keyStates p = p)
  ∧ (∀ env timestamp g j p,
       Game.players g !! j = Some p →
       Player.isAlive p = false →
       ∃ p', Game.players (gameLoop env timestamp g) !! j = Some p'
             ∧ p' = Player.set_score (Player.score p') p).
Proof.
  split.
  - intros now rnd controls keyStates p Hdead.
    unfold updatePlayer. by rewrite Hdead.
  - intros env timestamp g j p Hj Hdead.
    destruct (gameLoop_dead env timestamp g j p Hj Hdead) as (p' & Hp' & Hun).
    exists p'. split; [done|].
    destruct p, p'. unfold unscored, Player.set_score in *. simpl in *.
    injection Hun. intros. subst. reflexivity.
Qed.

(** C2. The final ranking lists the ids of the players still alive, in the
    order of the players, and then [eliminationOrder] from its last entry to
    its first: with the elimination order [2; 4; 1] and player 3 alone
    alive it is [3; 1; 4; 2]. At the end of a round of the program at most
    one player is alive and the ranking holds every player once. *)
Theorem finalRanking_survivors_then_reversed :
  (∀ ps elim,
     finalRanking ps elim = livingPlayerIds ps ++ reverse elim)
  ∧ (∀ ps elim k,
       k < length (livingPlayerIds ps) →
       finalRanking ps elim !! k = livingPlayerIds ps !! k)
  ∧ (∀ ps elim j,
       j < length elim →
       finalRanking ps elim !! (length (livingPlayerIds ps) + j)
       = elim !! (length elim - 1 - j))
  ∧ (∀ ps, livingPlayerIds ps = [3] →
           finalRanking ps [2; 4; 1] = [3; 1; 4; 2])
  ∧ (∀ playerCount controls rnd w h events env timestamp,
       let g := run (initialGame playerCount controls rnd w h) events in
       let g' := gameLoop env timestamp g in
       Game.gameState g = Running →
       Game.gameState g' ≠ Running →
       let ranking := finalRanking (Game.players g') (Game.eliminationOrder g') in
       length (livingPlayerIds (Game.players g')) ≤ 1
       ∧ ranking ≡ₚ ids (Game.players g')
       ∧ NoDup ranking).
Proof.
  split_and!.
  - done.
  - intros ps elim k Hk. unfold finalRanking. by rewrite lookup_app_l.
  - intros ps elim j Hj. unfold finalRanking.
    rewrite lookup_app_r by lia.
    replace (length (livingPlayerIds ps) + j - length (livingPlayerIds ps))
      with j by lia.
    rewrite reverse_lookup by done. f_equal. lia.
  - intros ps Hps. unfold finalRanking. by rewrite Hps.
  - intros playerCount controls rnd w h events env timestamp g g' Hrun Hend ranking.
    assert (sound g) as Hg by apply run_sound, initialGame_sound.
    destruct (round_end_summary env timestamp g Hg Hrun Hend)
      as (ps0 & Hids & _ & Hpl & _ & Hperm & Hnd & Hlive & _).
    fold g' in Hpl, Hperm, Hnd, Hlive. fold ranking in Hpl, Hperm, Hnd.
    split_and!; [done| |done].
    rewrite Hperm, Hpl, <- Hids. unfold awarded, ids.
    rewrite <- list_fmap_compose. apply reflexive_eq. by apply list_fmap_ext.
Qed.

(** C4. At the end of a round the player at position 0 of the ranking
    receives 3 points, the one at position 1 receives 2, the one at
    position 2 receives 1 and those from position 3 on receive 0, added to
    their scores; no position is an error. The points awarded in the round
    add up to those of the first N entries of 3, 2, 1, 0, for N players. *)
Theorem round_points_by_rank :
  (pointsFor 0 = 3%Z ∧ pointsFor 1 = 2%Z ∧ pointsFor 2 = 1%Z
   ∧ ∀ k, 3 ≤ k → pointsFor k = 0%Z)
  ∧ (∀ playerCount controls rnd w h events env timestamp,
       let g := run (initialGame playerCount controls rnd w h) events in
       let g' := gameLoop env timestamp g in
       Game.gameState g = Running →
       Game.gameState g' ≠ Running →
       let ranking := finalRanking (Game.players g') (Game.eliminationOrder g') in
       (∀ k p, p ∈ Game.players g →
               ranking !! k = Some (Player.id p) →
               ∃ p', p' ∈ Game.players g'
                     ∧ Player.id p' = Player.id p
                     ∧ Player.score p' = (Player.score p + pointsFor k)%Z)
       ∧ totalScore (Game.players g')
         = (totalScore (Game.players g)
            + sumZ (take (length (Game.players g)) [3; 2; 1; 0]%Z))%Z).
Proof.
  split.
  { split_and!; try done.
    intros k Hk. by do 4 (destruct k as [|k]; [lia || done|]). }
  intros playerCount controls rnd w h events env timestamp g g' Hrun Hend ranking.
  assert (sound g) as Hg by apply run_sound, initialGame_sound.
  destruct (round_end_summary env timestamp g Hg Hrun Hend)
    as (ps0 & Hids & Hsc & Hpl & _ & Hperm & Hnd & _ & _ & _ & _ & Htotal).
  fold g' in Hpl, Hperm, Hnd, Htotal. fold ranking in Hpl, Hperm, Hnd.
  split; [|exact Htotal].
  intros k p Hp Hk.
  apply list_elem_of_lookup in Hp as [j Hj].
  assert (∃ q, ps0 !! j = Some q) as [q Hq].
  { apply lookup_lt_is_Some_2. apply (f_equal length) in Hids.
    unfold ids in Hids. rewrite !length_fmap in Hids. rewrite Hids.
    by eapply lookup_lt_Some. }
  assert (Player.id q = Player.id p) as Hqid.
  { apply (f_equal (fun l => l !! j)) in Hids. unfold ids in Hids.
    rewrite !list_lookup_fmap, Hj, Hq in Hids. by simplify_eq/=. }
  assert (Player.score q = Player.score p) as Hqsc.
  { apply (f_equal (fun l => l !! j)) in Hsc.
    rewrite !list_lookup_fmap, Hj, Hq in Hsc. by simplify_eq/=. }
  exists (Player.set_score
            (Player.score q + bonus 0 ranking (Player.id q))%Z q).
  split_and!.
  - rewrite Hpl. apply list_elem_of_lookup. exists j.
    unfold awarded. by rewrite list_lookup_fmap, Hq.
  - done.
  - simpl. rewrite Hqid, Hqsc. by rewrite (bonus_at 0 ranking k).
Qed.

End RoundClaims.

Section SessionFacts.
Context {num : Type} {JN : JSNumber num}.
Implicit Types (p q : Player.t num) (ps : list (Player.t num))
  (g : Game.t num) (scores : list Z).

#[local] Instance descending_trans : Transitive descending.
Proof. intros a b c. unfold descending. lia. Qed.

#[local] Instance descending_total : Total descending.
Proof. intros a b. unfold descending. lia. Qed.

Lemma highest_Permutation h scores scores' :
  scores ≡ₚ scores' → highest h scores → highest h scores'.
Proof.
  intros Hp [Hin Hmax]. split.
  - by rewrite <- Hp.
  - intros s Hs. apply Hmax. by rewrite Hp.
Qed.

Lemma highest_unique h h' scores :
  highest h scores → highest h' scores → h = h'.
Proof.
  intros [Hin Hmax] [Hin' Hmax'].
  specialize (Hmax _ Hin'). specialize (Hmax' _ Hin). lia.
Qed.

Lemma highest_sorted h tl :
  StronglySorted descending (h :: tl) → highest h (h :: tl).
Proof.
  intros Hs. apply StronglySorted_inv in Hs as [_ Hall].
  split; [by left|].
  intros s [->|Hs]%elem_of_cons; [lia|].
  rewrite Forall_forall in Hall. exact (Hall s Hs).
Qed.

Lemma winCondition_Permutation scores scores' :
  scores ≡ₚ scores' → winCondition scores → winCondition scores'.
Proof.
  intros Hp (h & Hh & H30 & Hmargin).
  exists h. split_and!; [by eapply highest_Permutation|done|].
  destruct Hmargin as [Hlen|(s2 & (h0 & rest & Hsplit & Hh0 & Hs2) & Hdiff)].
  - left. by rewrite <- Hp.
  - right. exists s2. split; [|done].
    exists h0, rest. split_and!; [by rewrite <- Hp| |done].
    by eapply highest_Permutation.
Qed.

Lemma sessionWon_spec (lastScores : gmap nat Z) :
  sessionWon lastScores = true ↔ winCondition (map_to_list lastScores).*2.
Proof.
  unfold sessionWon, sortedScores.
  set (vals := (map_to_list lastScores).*2).
  pose proof (merge_sort_Permutation descending vals) as Hperm.
  pose proof (StronglySorted_merge_sort descending vals) as Hsorted.
  set (sorted := merge_sort descending vals) in *.
  unfold WIN_SCORE, WIN_DIFFERENCE.
  split.
  - intros [H30 Hmargin]%andb_true_iff. apply Z.leb_le in H30.
    destruct sorted as [|h tl] eqn:Hs; [simpl in H30; lia|].
    simpl in H30.
    apply (winCondition_Permutation (h :: tl)); [done|].
    pose proof (highest_sorted h tl Hsorted) as Hh.
    exists h. split_and!; [done|done|].
    apply orb_true_iff in Hmargin as [Hlen|Hdiff].
    + left. by apply bool_decide_eq_true in Hlen.
    + destruct tl as [|s2 tl']; [left; simpl; lia|right].
      simpl in Hdiff. apply Z.leb_le in Hdiff.
      exists s2. split; [|lia].
      exists h, (s2 :: tl'). split_and!; [done|done|].
      apply highest_sorted. by apply StronglySorted_inv in Hsorted as [? _].
  - intros Hwin. apply (winCondition_Permutation _ sorted) in Hwin; [|done].
    destruct Hwin as (h & Hh & H30 & Hmargin).
    destruct sorted as [|h' tl] eqn:Hs.
    { destruct Hh as [Hin _]. by apply elem_of_nil in Hin. }
    pose proof (highest_sorted h' tl Hsorted) as Hh'.
    assert (h' = h) as -> by (by eapply highest_unique).
    apply andb_true_iff. split; [simpl; by apply Z.leb_le|].
    apply orb_true_iff.
    destruct Hmargin as [Hlen|(s2 & (h0 & rest & Hsplit & Hh0 & Hs2) & Hdiff)].
    + left. by apply bool_decide_eq_true.
    + right.
      assert (h0 = h) as -> by (by eapply highest_unique).
      apply Permutation_cons_inv in Hsplit.
      destruct tl as [|s2' tl'].
      { destruct Hs2 as [Hin _]. rewrite <- Hsplit in Hin.
        by apply elem_of_nil in Hin. }
      assert (highest s2' (s2' :: tl')) as Hs2'.
      { apply highest_sorted. by apply StronglySorted_inv in Hsorted as [? _]. }
      assert (s2' = s2) as ->.
      { eapply highest_unique; [exact Hs2'|].
        eapply highest_Permutation; [symmetry; exact Hsplit|done]. }
      simpl. apply Z.leb_le. lia.
Qed.

Lemma scoresOf_fold (m0 : gmap nat Z) ps :
  NoDup (ids ps) →
  (∀ p, p ∈ ps → m0 !! Player.id p = None) →
  map_to_list (foldl (fun m p => <[Player.id p := Player.score p]> m) m0 ps)
  ≡ₚ ((fun p => (Player.id p, Player.score p)) <$> ps) ++ map_to_list m0.
Proof.
  revert m0. induction ps as [|p ps IH]; intros m0 Hnd Hfresh; [done|].
  unfold ids in Hnd. rewrite fmap_cons in Hnd.
  apply NoDup_cons in Hnd as [Hp Hnd].
  simpl. rewrite IH.
  - rewrite map_to_list_insert by (apply Hfresh; by left).
    by rewrite <- Permutation_middle.
  - done.
  - intros q Hq. rewrite lookup_insert_ne.
    + apply Hfresh. by right.
    + intros Heq. apply Hp. rewrite Heq.
      apply list_elem_of_fmap. by exists q.
Qed.

Lemma scoresOf_spec ps :
  NoDup (ids ps) →
  (map_to_list (scoresOf ps)).*2 ≡ₚ Player.score <$> ps
  ∧ ∀ p, p ∈ ps → scoresOf ps !! Player.id p = Some (Player.score p).
Proof.
  intros Hnd. unfold scoresOf.
  pose proof (scoresOf_fold ∅ ps Hnd (fun p _ => lookup_empty _)) as Hm.
  rewrite map_to_list_empty, app_nil_r in Hm.
  split.
  - rewrite Hm, <- list_fmap_compose. done.
  - intros p Hp. apply elem_of_map_to_list. rewrite Hm.
    apply list_elem_of_fmap. by exists p.
Qed.

End SessionFacts.

Section SessionClaims.
Context {num : Type} {JN : JSNumber num}.
Implicit Types (p q : Player.t num) (ps : list (Player.t num))
  (g : Game.t num) (st : Frame.t num).

(** C1. The round-end block ends the session exactly when the highest
    score is at least 30 and there are fewer than two scores or the highest
    exceeds the second highest by at least 2: scores 30 and 28 end it,
    scores 30 and 29 or 31 and 30 do not, a single score of 30 ends it.
    Otherwise the game is in the round-over state. In both cases
    [lastScores] holds the score of every player, and from the round-over
    state Enter starts the next round with the same players and scores. *)
Theorem session_win_condition :
  (∀ lastScores : gmap nat Z,
     sessionWon lastScores = true ↔ winCondition (map_to_list lastScores).*2)
  ∧ (sessionWon (<[1 := 30%Z]> (<[2 := 28%Z]> ∅)) = true
     ∧ sessionWon (<[1 := 30%Z]> (<[2 := 29%Z]> ∅)) = false
     ∧ sessionWon (<[1 := 31%Z]> (<[2 := 30%Z]> ∅)) = false
     ∧ sessionWon (<[1 := 30%Z]> ∅) = true)
  ∧ (∀ g st remaining,
       let g' := roundEnd g st remaining in
       (Game.gameState g' = SessionOver
        ↔ winCondition (map_to_list (Game.lastScores g')).*2)
       ∧ (Game.gameState g' ≠ SessionOver → Game.gameState g' = GameOver)
       ∧ Game.lastScores g' = scoresOf (Game.players g'))
  ∧ (∀ playerCount controls rnd w h events env timestamp,
       let g := run (initialGame playerCount controls rnd w h) events in
       let g' := gameLoop env timestamp g in
       Game.gameState g = Running →
       Game.gameState g' ≠ Running →
       (Game.gameState g' = SessionOver
        ↔ winCondition (Player.score <$> Game.players g'))
       ∧ (Game.gameState g' ≠ SessionOver → Game.gameState g' = GameOver)
       ∧ (∀ p, p ∈ Game.players g' →
               Game.lastScores g' !! Player.id p = Some (Player.score p))
       ∧ (Game.gameState g' = GameOver →
          ∀ keyEnv,
            let next := handleKeyDown keyEnv "enter" g' in
            Game.gameState next = Running
            ∧ ids (Game.players next) = ids (Game.players g')
            ∧ Player.score <$> Game.players next
              = Player.score <$> Game.players g')).
Proof.
  split; [|split; [|split]].
  - apply sessionWon_spec.
  - split_and!; by vm_compute.
  - intros g st remaining g'. subst g'. unfold roundEnd.
    cbn [Game.gameState Game.lastScores Game.players].
    rewrite <- sessionWon_spec.
    destruct (sessionWon _); split_and!; try done.
  - intros playerCount controls rnd w h events env timestamp g g' Hrun Hend.
    assert (sound g) as Hg by apply run_sound, initialGame_sound.
    assert (sound g') as [Hround _] by (by apply gameLoop_sound).
    destruct (round_end_summary env timestamp g Hg Hrun Hend)
      as (ps0 & Hids0 & _ & Hpl & _ & _ & _ & _ & Hlen & Hlast & Hstate & _).
    fold g' in Hlast, Hstate, Hpl.
    assert (NoDup (ids (Game.players g'))) as Hnd.
    { destruct Hround as [Hnil|[Hnd _]]; [|done]. rewrite Hnil. constructor. }
    destruct (scoresOf_spec _ Hnd) as [Hvals Hlook].
    assert (∀ p, p ∈ Game.players g' →
              Game.lastScores g' !! Player.id p = Some (Player.score p)) as Hkept.
    { intros p Hp. rewrite Hlast. by apply Hlook. }
    assert (Game.players g' ≠ []) as Hne.
    { intros Hnil. rewrite Hnil in Hpl. unfold awarded in Hpl.
      symmetry in Hpl. apply fmap_nil_inv in Hpl. rewrite Hpl in Hids0.
      unfold ids in Hids0. symmetry in Hids0. apply fmap_nil_inv in Hids0.
      rewrite Hids0 in Hlen. simpl in Hlen. lia. }
    assert (rosterInv g') as Hroster.
    { apply (handle_rosterInv g (AnimationFrame env timestamp)).
      apply run_rosterInv. by left. }
    split_and!; [| | |intros Hover keyEnv; by apply next_round_scores].
    + rewrite Hstate. rewrite <- Hlast in Hvals.
      transitivity (winCondition (map_to_list (Game.lastScores g')).*2).
      * rewrite <- sessionWon_spec. by destruct (sessionWon _).
      * split; apply winCondition_Permutation; by rewrite Hvals.
    + rewrite Hstate. by destruct (sessionWon _).
    + exact Hkept.
Qed.

End SessionClaims.

Section PauseFacts.
Context {num : Type} {JN : JSNumber num}.
Implicit Types (p q : Player.t num) (ps : list (Player.t num))
  (g : Game.t num) (st : Frame.t num) (e : Event (num := num)).

(** While the game is paused, an event other than a press of the space bar
    leaves the players, the powerups and the timers as they are. *)
Lemma paused_inert g e :
  Game.gameState g = Paused →
  isSpaceDown e = false →
  Game.gameState (handle g e) = Paused
  ∧ Game.players (handle g e) = Game.players g
  ∧ Game.activePowerups (handle g e) = Game.activePowerups g
  ∧ Game.lastPowerupSpawnTime (handle g e) = Game.lastPowerupSpawnTime g
  ∧ Game.pauseStartTime (handle g e) = Game.pauseStartTime g.
Proof.
  intros Hpaused Hns. destruct e as [env key|key|rnd hit|w h|env timestamp]; simpl.
  - simpl in Hns. unfold handleKeyDown. rewrite Hpaused, Hns. simpl.
    rewrite ?andb_false_r.
    by destruct (Game.waitingForKeyBinding g).
  - done.
  - unfold handleMouseClick. by rewrite Hpaused.
  - done.
  - unfold gameLoop. by rewrite bool_decide_eq_true_2.
Qed.

Lemma paused_run g events :
  Game.gameState g = Paused →
  Forall (fun e => isSpaceDown e = false) events →
  Game.gameState (run g events) = Paused
  ∧ Game.players (run g events) = Game.players g
  ∧ Game.activePowerups (run g events) = Game.activePowerups g
  ∧ Game.lastPowerupSpawnTime (run g events) = Game.lastPowerupSpawnTime g
  ∧ Game.pauseStartTime (run g events) = Game.pauseStartTime g.
Proof.
  revert g. induction events as [|e events IH]; intros g Hpaused Hall; [done|].
  apply Forall_cons in Hall as [He Hall].
  destruct (paused_inert g e Hpaused He) as (H1 & H2 & H3 & H4 & H5).
  destruct (IH (handle g e) H1 Hall) as (I1 & I2 & I3 & I4 & I5).
  unfold run in *. simpl. split_and!; congruence.
Qed.

Lemma handleKeyDown_pause env key g :
  Game.gameState g = Running → isSpace key = true →
  handleKeyDown env key g = pauseGame (key_now env) g.
Proof.
  intros Hrun Hsp. unfold handleKeyDown. rewrite Hrun, Hsp. simpl.
  by destruct (Game.waitingForKeyBinding g).
Qed.

Lemma handleKeyDown_resume env key g :
  Game.gameState g = Paused → isSpace key = true →
  handleKeyDown env key g = resumeGame (key_now env) g.
Proof.
  intros Hpaused Hsp. unfold handleKeyDown. rewrite Hpaused, Hsp. simpl.
  by destruct (Game.waitingForKeyBinding g).
Qed.

(** C5. A pause that starts at [t0] and ends at [t1], whatever happens in
    between short of a press of the space bar, adds exactly [t1 - t0] to
    every truthy effect-expiry timestamp of every player, to [createdAt] of
    every active powerup and to [lastPowerupSpawnTime], and changes nothing
    else of players and powerups; an effect with [d] ticks left at the
    pause has [d] ticks left at the resume. *)
Theorem pause_resume_shifts_timestamps g env0 key0 events env1 key1 :
  Game.gameState g = Running →
  isSpace key0 = true →
  isSpace key1 = true →
  Forall (fun e => isSpaceDown e = false) events →
  let t0 := key_now env0 in
  let t1 := key_now env1 in
  let paused := run (handleKeyDown env0 key0 g) events in
  let g' := handleKeyDown env1 key1 paused in
  Game.gameState paused = Paused
  ∧ Game.gameState g' = Running
  ∧ Game.players g' = shiftEffects (t1 - t0) <$> Game.players g
  ∧ (∀ i p, Game.players g !! i = Some p →
       ∃ p', Game.players g' !! i = Some p'
         ∧ p' = Player.set_activeEffects (Player.activeEffects p') p
         ∧ ∀ k expiry,
             Player.activeEffects p !! k = Some expiry →
             expiry ≠ 0%Z →
             Player.activeEffects p' !! k = Some (expiry + (t1 - t0))%Z
             ∧ (expiry + (t1 - t0) - t1 = expiry - t0)%Z)
  ∧ (∀ j u, Game.activePowerups g !! j = Some u →
       Game.activePowerups g' !! j
       = Some (Powerup.set_createdAt (Powerup.createdAt u + (t1 - t0))%Z u))
  ∧ length (Game.activePowerups g') = length (Game.activePowerups g)
  ∧ Game.lastPowerupSpawnTime g'
    = (Game.lastPowerupSpawnTime g + (t1 - t0))%Z.
Proof.
  intros Hrun Hk0 Hk1 Hquiet. cbv zeta.
  set (t0 := key_now env0). set (t1 := key_now env1).
  rewrite (handleKeyDown_pause env0 key0 g Hrun Hk0). fold t0.
  destruct (paused_run (pauseGame t0 g) events eq_refl Hquiet)
    as (Hst & Hpl & Hpw & Hsp & Hps).
  set (paused := run (pauseGame t0 g) events) in *.
  rewrite (handleKeyDown_resume env1 key1 paused Hst Hk1). fold t1.
  set (g' := resumeGame t1 paused).
  assert (g' = resumeGame t1 paused) as Hg' by done.
  simpl in Hpl, Hpw, Hsp, Hps.
  assert (Game.players g' = shiftEffects (t1 - t0) <$> Game.players g) as Hplayers.
  { rewrite Hg'. unfold resumeGame. rewrite Hps. simpl. by rewrite Hpl. }
  assert (Game.activePowerups g'
          = shiftPowerup (t1 - t0) <$> Game.activePowerups g) as Hpowerups.
  { rewrite Hg'. unfold resumeGame. rewrite Hps. simpl. by rewrite Hpw. }
  split_and!.
  - done.
  - rewrite Hg'. unfold resumeGame. by rewrite Hps.
  - done.
  - intros i p Hi. exists (shiftEffects (t1 - t0) p). split_and!.
    + by rewrite Hplayers, list_lookup_fmap, Hi.
    + by destruct p.
    + intros k expiry Hk Hne. split; [|lia].
      simpl. rewrite lookup_fmap, Hk. simpl. unfold shiftExpiry.
      by rewrite (proj2 (Z.eqb_neq _ _) Hne).
  - intros j u Hj. by rewrite Hpowerups, list_lookup_fmap, Hj.
  - by rewrite Hpowerups, length_fmap.
  - rewrite Hg'. unfold resumeGame. rewrite Hps. simpl. by rewrite Hsp.
Qed.

End PauseFacts.

Section CollectionFacts.
Context {num : Type} {JN : JSNumber num}.
Implicit Types (p q : Player.t num) (u : Powerup.t num)
  (ps : list (Player.t num)) (us : list (Powerup.t num))
  (g : Game.t num) (st : Frame.t num).






(** The log only grows along the loop. *)
Lemma collectPowerups_keeps env w h i us : ∀ j st k,
  k ∈ (Frame.collected st).*2 →
  k ∈ (Frame.collected (collectPowerups env w h i j us st)).*2.
Proof.
  induction us as [|u rest IH]; intros j st k Hk; [done|].
  cbn [collectPowerups]. cbv zeta. apply IH.
  case_bool_decide; [done|].
  destruct (Frame.currentPlayers st !! i) as [p|]; [|done].
  destruct (reaches p u); [|done].
  simpl. rewrite fmap_app, elem_of_app. by left.
Qed.


(** The log only grows along the turn of one player. *)
Lemma processPlayer_keeps env g st k x :
  x ∈ (Frame.collected st).*2 →
  x ∈ (Frame.collected (processPlayer env g st k)).*2.
Proof.
  intros Hx. unfold processPlayer.
  destruct (Frame.currentPlayers st !! k) as [player0|]; [|done].
  destruct (Player.isAlive _); [|done].
  destruct (checkCollisions _ _ _ _); [done|].
  simpl. case_bool_decide; [|done].
  by apply collectPowerups_keeps.
Qed.

Lemma processPlayers_keeps env g st0 k n x :
  x ∈ (Frame.collected (foldl (processPlayer env g) st0 (seq 0 k))).*2 →
  x ∈ (Frame.collected (foldl (processPlayer env g) st0 (seq 0 (k + n)))).*2.
Proof.
  intros Hx. induction n as [|n IH]; [by rewrite Nat.add_0_r|].
  rewrite Nat.add_succ_r, seq_S, foldl_app. simpl.
  by apply processPlayer_keeps.
Qed.






End CollectionFacts.

Section PowerupFacts.
Context {num : Type} {JN : JSNumber num}.
Implicit Types (p q : Player.t num) (u : Powerup.t num)
  (us : list (Powerup.t num)) (g : Game.t num) (st : Frame.t num).












End PowerupFacts.

(** * The theorems on concrete inputs *)

#[local] Existing Instance FixedPoint.number.

Lemma updatePlayer_dead_noop_witness :
  Player.isAlive Scenario.fallen = false
  ∧ updatePlayer 1000%Z 7%Z defaultControls (<["arrowleft" := true]> ∅)
      Scenario.fallen
    = Scenario.fallen
  ∧ Game.players Scenario.thinned !! 0 = Some Scenario.fallen
  ∧ ∃ p', Game.players (gameLoop Scenario.quietFrame 2000%Z Scenario.thinned) !! 0
          = Some p'
          ∧ p' = Player.set_score (Player.score p') Scenario.fallen.
Proof.
  destruct (updatePlayer_dead_noop (JN := FixedPoint.number)) as [Hstep Hframe].
  split; [reflexivity|].
  split; [apply Hstep; reflexivity|].
  split; [reflexivity|].
  apply Hframe; reflexivity.
Defined.

Lemma checkCollisions_immune_witness :
  Player.isMakingHole Scenario.digging = true
  ∧ hitsBoundary Scenario.digging 1000000%Z 720000%Z = true
  ∧ checkCollisions Scenario.digging 1000000%Z 720000%Z
      [Scenario.digging; Scenario.looped] = false.
Proof.
  split; [reflexivity|]. split; [reflexivity|].
  apply checkCollisions_immune. left. reflexivity.
Defined.

Lemma updatePlayer_gap_collapsing_witness :
  noConsecutiveGaps (Player.path Scenario.digging) = true
  ∧ noConsecutiveGaps
      (Player.path (updatePlayer 0%Z 500%Z defaultControls Scenario.noKeys
                      Scenario.digging)) = true
  ∧ holeRun defaultControls Scenario.threeSteps Scenario.digging = true
  ∧ (Player.path (updateRun defaultControls Scenario.threeSteps Scenario.digging)
     = Player.path Scenario.digging
     ∨ Player.path (updateRun defaultControls Scenario.threeSteps Scenario.digging)
       = Player.path Scenario.digging ++ [None]).
Proof.
  destruct (updatePlayer_gap_collapsing (JN := FixedPoint.number) defaultControls)
    as (Hstep & Hrun & _).
  split; [reflexivity|]. split; [apply Hstep; reflexivity|].
  split; [reflexivity|]. apply Hrun. reflexivity.
Defined.

Lemma checkCollisions_self_exclusion_witness :
  length (Player.path Scenario.north) ≤ 20
  ∧ scanPath Scenario.north Scenario.north 0 (Player.path Scenario.north) = false
  ∧ length Scenario.threeSteps ≤ 19
  ∧ (let q := updateRun defaultControls Scenario.threeSteps Scenario.north in
     scanPath q q 0 (Player.path q) = false)
  ∧ (checkCollisions Scenario.looped 1000000%Z 720000%Z [Scenario.looped] = true
     ↔ ∃ other, other ∈ [Scenario.looped]
                ∧ scanPath Scenario.looped other 0 (Player.path other) = true).
Proof.
  destruct (checkCollisions_self_exclusion Scenario.north) as (_ & _ & Hshort & Hnew).
  destruct (checkCollisions_self_exclusion Scenario.looped) as (_ & Hall & _).
  split; [simpl; lia|].
  split; [apply Hshort; [reflexivity|simpl; lia]|].
  split; [simpl; lia|].
  split.
  - apply (Hnew 1 "Ace" 100000%Z 100000%Z 0%Z "red" 0%Z defaultControls
             Scenario.threeSteps).
    simpl. lia.
  - apply Hall; reflexivity.
Defined.

Lemma path_never_empty_witness :
  Scenario.firstPlayer ∈ Game.players Scenario.started
  ∧ 1 ≤ length (Player.path Scenario.firstPlayer)
  ∧ pathsNonEmpty [Scenario.digging]
  ∧ pathsNonEmpty
      (applyPowerupEffect 0%Z 0%Z 0%Z 1280000%Z 720000%Z 0 Scenario.broom
         [Scenario.digging])
  ∧ ∃ q, applyPowerupEffect 0%Z 0%Z 0%Z 1280000%Z 720000%Z 0 Scenario.broom
           [Scenario.digging] !! 0 = Some q
         ∧ Player.path q = [Some (mkPoint (-50000) 10000)%Z].
Proof.
  destruct (path_never_empty (JN := FixedPoint.number))
    as (_ & _ & Hkeep & Hclear & _ & Hrun).
  assert (Scenario.firstPlayer ∈ Game.players Scenario.started) as Hin.
  { apply (list_elem_of_lookup_2 _ 0). vm_compute. reflexivity. }
  assert (pathsNonEmpty [Scenario.digging]) as Hne.
  { constructor; [discriminate|constructor]. }
  split; [exact Hin|].
  split; [exact (Hrun 2 defaultControls (fun _ => 300%Z) 0%Z 0%Z
                   Scenario.opening Scenario.firstPlayer Hin)|].
  split; [exact Hne|].
  split; [apply Hkeep; exact Hne|].
  apply (Hclear 0%Z 0%Z 0%Z 1280000%Z 720000%Z 0 Scenario.broom
           [Scenario.digging] Scenario.digging); reflexivity.
Defined.

Lemma finalRanking_survivors_then_reversed_witness :
  livingPlayerIds Scenario.lastStanding = [3]
  ∧ finalRanking Scenario.lastStanding [2; 4; 1] = [3; 1; 4; 2]
  ∧ finalRanking Scenario.lastStanding [2; 4; 1] !! (1 + 0) = [2; 4; 1] !! (3 - 1 - 0)
  ∧ Game.gameState Scenario.started = Running
  ∧ Game.gameState (gameLoop Scenario.firstFrame 16%Z Scenario.started) ≠ Running
  ∧ (let g' := gameLoop Scenario.firstFrame 16%Z Scenario.started in
     let ranking := finalRanking (Game.players g') (Game.eliminationOrder g') in
     length (livingPlayerIds (Game.players g')) ≤ 1
     ∧ ranking ≡ₚ ids (Game.players g')
     ∧ NoDup ranking).
Proof.
  destruct (finalRanking_survivors_then_reversed (JN := FixedPoint.number))
    as (_ & _ & Hdead & Hexample & Hround).
  split; [reflexivity|].
  split; [apply Hexample; reflexivity|].
  split; [apply (Hdead Scenario.lastStanding [2; 4; 1] 0); simpl; lia|].
  split; [reflexivity|].
  split; [vm_compute; discriminate|].
  apply (Hround 2 defaultControls (fun _ => 300%Z) 0%Z 0%Z Scenario.opening
           Scenario.firstFrame 16%Z).
  - reflexivity.
  - vm_compute. discriminate.
Defined.

Lemma round_points_by_rank_witness :
  Game.gameState Scenario.started = Running
  ∧ Game.gameState (gameLoop Scenario.firstFrame 16%Z Scenario.started) ≠ Running
  ∧ (let g' := gameLoop Scenario.firstFrame 16%Z Scenario.started in
     let ranking := finalRanking (Game.players g') (Game.eliminationOrder g') in
     (∀ k p, p ∈ Game.players Scenario.started →
             ranking !! k = Some (Player.id p) →
             ∃ p', p' ∈ Game.players g'
                   ∧ Player.id p' = Player.id p
                   ∧ Player.score p' = (Player.score p + pointsFor k)%Z)
     ∧ totalScore (Game.players g')
       = (totalScore (Game.players Scenario.started)
          + sumZ (take (length (Game.players Scenario.started)) [3; 2; 1; 0]%Z))%Z).
Proof.
  destruct (round_points_by_rank (JN := FixedPoint.number)) as [_ Hround].
  split; [reflexivity|].
  split; [vm_compute; discriminate|].
  apply (Hround 2 defaultControls (fun _ => 300%Z) 0%Z 0%Z Scenario.opening
           Scenario.firstFrame 16%Z).
  - reflexivity.
  - vm_compute. discriminate.
Defined.

Lemma session_win_condition_witness :
  Game.gameState Scenario.started = Running
  ∧ Game.gameState (gameLoop Scenario.firstFrame 16%Z Scenario.started) ≠ Running
  ∧ (let g' := gameLoop Scenario.firstFrame 16%Z Scenario.started in
     (Game.gameState g' = SessionOver
      ↔ winCondition (Player.score <$> Game.players g'))
     ∧ (Game.gameState g' ≠ SessionOver → Game.gameState g' = GameOver)
     ∧ (∀ p, p ∈ Game.players g' →
             Game.lastScores g' !! Player.id p = Some (Player.score p))
     ∧ (Game.gameState g' = GameOver →
        ∀ keyEnv,
          let next := handleKeyDown keyEnv "enter" g' in
          Game.gameState next = Running
          ∧ ids (Game.players next) = ids (Game.players g')
          ∧ Player.score <$> Game.players next
            = Player.score <$> Game.players g')).
Proof.
  destruct (session_win_condition (JN := FixedPoint.number)) as (_ & _ & _ & Hround).
  split; [reflexivity|].
  split; [vm_compute; discriminate|].
  apply (Hround 2 defaultControls (fun _ => 300%Z) 0%Z 0%Z Scenario.opening
           Scenario.firstFrame 16%Z).
  - reflexivity.
  - vm_compute. discriminate.
Defined.

Lemma pause_resume_shifts_timestamps_witness :
  Game.gameState Scenario.boosted = Running
  ∧ isSpace " " = true
  ∧ Forall (fun e => isSpaceDown e = false) Scenario.whilePaused
  ∧ (let paused := run (handleKeyDown (Scenario.pressAt 1000%Z) " " Scenario.boosted)
                       Scenario.whilePaused in
     let g' := handleKeyDown (Scenario.pressAt 11000%Z) " " paused in
     Game.gameState g' = Running
     ∧ (∀ i p, Game.players Scenario.boosted !! i = Some p →
          ∃ p', Game.players g' !! i = Some p'
            ∧ p' = Player.set_activeEffects (Player.activeEffects p') p
            ∧ ∀ k expiry,
                Player.activeEffects p !! k = Some expiry →
                expiry ≠ 0%Z →
                Player.activeEffects p' !! k = Some (expiry + (11000 - 1000))%Z
                ∧ (expiry + (11000 - 1000) - 11000 = expiry - 1000)%Z)
     ∧ Game.lastPowerupSpawnTime g'
       = (Game.lastPowerupSpawnTime Scenario.boosted + (11000 - 1000))%Z).
Proof.
  assert (Forall (fun e => isSpaceDown e = false) Scenario.whilePaused) as Hquiet.
  { repeat constructor. }
  split; [reflexivity|]. split; [reflexivity|]. split; [exact Hquiet|].
  destruct (pause_resume_shifts_timestamps Scenario.boosted
              (Scenario.pressAt 1000%Z) " " Scenario.whilePaused
              (Scenario.pressAt 11000%Z) " " eq_refl eq_refl eq_refl Hquiet)
    as (_ & Hstate & _ & Heffects & _ & _ & Hspawn).
  split; [exact Hstate|]. split; [exact Heffects|exact Hspawn].
Defined.


(** ** The scenarios, evaluated *)

(** Two heads reach the same powerup in one frame: the first player
    processed collects it, the second finds it taken, and it leaves the
    field. *)
Example contested_powerup :
  let st := processPlayers Scenario.quietFrame Scenario.contested in
  let g' := updateStep Scenario.quietFrame Scenario.contested in
  (fun p => reaches p Scenario.boost) <$> Frame.currentPlayers st = [true; true]
  ∧ Frame.collected st = [(1, 0)]
  ∧ (fun p => effectActive p SPEED_BOOST) <$> Game.players g' = [true; false]
  ∧ Game.activePowerups g' = [].
Proof. vm_compute. done. Qed.

(** A head on a point of its own trail that is 30 entries old collides. *)
Example looped_collides :
  checkCollisions Scenario.looped 1000000%Z 720000%Z [Scenario.looped] = true.
Proof. reflexivity. Qed.

(** The first round of the scenario: player 1 is out, player 2 is first
    with 3 points and player 1 second with 2. *)
Example first_round :
  let g' := gameLoop Scenario.firstFrame 16%Z Scenario.started in
  Game.gameState g' = GameOver
  ∧ Game.eliminationOrder g' = [1]
  ∧ finalRanking (Game.players g') (Game.eliminationOrder g') = [2; 1]
  ∧ Player.score <$> Game.players g' = [2; 3]%Z.
Proof. vm_compute. done. Qed.

(** The boundary cases of the win condition, on lists of scores. *)
Example winCondition_30_28 : winCondition [30; 28]%Z.
Proof.
  exists 30%Z. split_and!; [split; [by left|]|lia|right].
  - intros s Hs. repeat (apply elem_of_cons in Hs as [->|Hs]); [lia|lia|].
    by apply elem_of_nil in Hs.
  - exists 28%Z. split; [|lia]. exists 30%Z, [28%Z]. split_and!; [done| |].
    + split; [by left|]. intros s Hs.
      repeat (apply elem_of_cons in Hs as [->|Hs]); [lia|lia|].
      by apply elem_of_nil in Hs.
    + split; [by left|]. intros s Hs.
      apply elem_of_cons in Hs as [->|Hs]; [lia|].
      by apply elem_of_nil in Hs.
Qed.

(** The player of [checkCollisions_immune_witness] without its hole is out
    of bounds. *)
Example surfaced_collides :
  checkCollisions Scenario.surfaced 1000000%Z 720000%Z [Scenario.surfaced] = true.
Proof. reflexivity. Qed.

(** A player that goes straight for 200 steps never meets its own trail:
    the nearest point put to the test is 40 units behind the head. *)
Example straight_line_safe :
  forallb (fun k => negb (scanPath (Scenario.straight k) (Scenario.straight k) 0
                            (Player.path (Scenario.straight k))))
          (seq 0 200) = true.
Proof. vm_compute. reflexivity. Qed.

(** The pause of [pause_resume_shifts_timestamps_witness]: 5000 ticks of
    speed boost are left when it starts at 1000 and when it ends at
    11000. *)
Example pause_keeps_remaining :
  let g' := handleKeyDown (Scenario.pressAt 11000%Z) " "
              (run (handleKeyDown (Scenario.pressAt 1000%Z) " " Scenario.boosted)
                   Scenario.whilePaused) in
  (fun p => Player.activeEffects p !! SPEED_BOOST) <$> Game.players Scenario.boosted
  = [Some 6000%Z; None]
  ∧ (fun p => Player.activeEffects p !! SPEED_BOOST) <$> Game.players g'
    = [Some 16000%Z; None]
  ∧ Powerup.createdAt <$> Game.activePowerups g' = [10000%Z]
  ∧ Game.lastPowerupSpawnTime g' = 11000%Z.
Proof. vm_compute. done. Qed.
